(** * vue-sherpa: the overlay path generator and the tour sequencer

A shallow embedding of [useOverlay] (the SVG cut-out path generator) and
of [useTour] (the step sequencer), and the properties of both.

Numbers.  JavaScript numbers are IEEE doubles.  The model takes them as
exact rationals [Q], and [numToString], the template-literal conversion
[`${n}`], prints the exact decimal expansion.  Model and code agree on
the numbers that are doubles themselves (binary fractions: integers,
halves, quarters and so on) of magnitude between 1e-6 and 1e21 with at
most 15 significant decimal digits, as long as the sums and differences
that the code takes are such numbers again: there the double arithmetic
of the code ([+], [-], [* 2], [/ 2], [Math.max], [Math.min]) is exact and
the shortest digits that JavaScript prints are the exact expansion.  The
integer pixel coordinates, paddings and radii of the tests, and their
halves, are of this kind.  Elsewhere model and code differ: 50.4 is no
double, and the double sum [50.4 + 8] prints as [58.400000000000006]
where the model prints [58.4]; NaN and the infinities are no rationals.
Nothing below rests on two different numbers being printed differently.

Asynchrony.  [setStep] is an [async] function: it runs to its first
[await] within the call that started it and the rest runs when the awaited
promise has settled.  The model keeps the suspended calls, the pending
timeouts and the pending animation-frame callbacks in the state, and
resuming one of them is an operation of its own.  The lifecycle callbacks
are supplied by the user; calling one is recorded in a log, and a callback
is taken to return normally and not to call back into the tour.

Exceptions.  The one call of the sequencer that can throw by itself is the
lookup of a target: [document.querySelector] throws for a string that is
no valid selector.  Nothing in [useTour] catches it, so it ends the
[setStep] or the resize listener that made the lookup. *)

From Stdlib Require Import QArith Qminmax ZArith String Ascii List Bool Lia Lqa.
From Stdlib Require Import DecimalString DecimalN.
Import ListNotations.

Open Scope string_scope.
Open Scope Q_scope.

(* ===================================================================== *)
(** ** Numbers and their printing *)
(* ===================================================================== *)

Module Num.

(** [a < b] as a boolean, for the tests [r > 0] of the code. *)
Definition Qltb (a b : Q) : bool := negb (Qle_bool b a).

(** The character of one decimal digit. *)
Definition digitChar (d : Z) : ascii := ascii_of_nat (48 + Z.to_nat d).

(** The decimal digits of [n]. *)
Definition natDigits (n : Z) : string :=
  NilZero.string_of_uint (N.to_uint (Z.to_N n)).

(** The digits of the fraction [rem / den] ([0 <= rem < den]), by long
    division; it stops when the remainder is zero. *)
Fixpoint fracDigits (fuel : nat) (rem den : Z) : string :=
  match fuel with
  | O => EmptyString
  | S fuel' =>
      if (rem =? 0)%Z then EmptyString
      else String (digitChar (10 * rem / den))
                  (fracDigits fuel' ((10 * rem) mod den) den)
  end.

(** A reduced fraction with denominator [d = 2^a * 5^b] has at most
    [max a b <= log2 d] decimals, so as many digits as [d] has bits are
    enough for every number with a finite decimal expansion. *)
Definition digitBudget (d : positive) : nat := Pos.to_nat (Pos.size d).

(** [`${q}`], as the exact decimal expansion of [q]: the sign, the digits
    of the integer part and, for a fraction, the point and the digits of
    the fraction. *)
Definition numToString (q : Q) : string :=
  let c := Qred q in
  let n := Z.abs (Qnum c) in
  let d := Z.pos (Qden c) in
  (if (Qnum c <? 0)%Z then "-" else "")
    ++ natDigits (n / d)
    ++ (if (n mod d =? 0)%Z then ""
        else "." ++ fracDigits (digitBudget (Qden c)) (n mod d) d).

End Num.

Import Num.

(* ===================================================================== *)
(** ** useOverlay *)
(* ===================================================================== *)

(** The fields of a [DOMRect] that the code reads. *)
Record DOMRect : Type := mkRect {
  rx : Q;
  ry : Q;
  rwidth : Q;
  rheight : Q
}.

(** [window.innerWidth] and [window.innerHeight]. *)
Record Window : Type := mkWindow {
  innerWidth : Q;
  innerHeight : Q
}.

(** The window of the test suite. *)
Definition mockWindow : Window := mkWindow 1024 768.

Module Overlay.

(** [OverlayOptions]: every field is optional. *)
Record OverlayOptions : Type := mkOptions {
  padding : option Q;
  radius : option Q;
  opacity : option Q;
  color : option string;
  animate : option bool;
  animationDuration : option Q
}.

(** The argument default [options = {}]. *)
Definition noOptions : OverlayOptions :=
  mkOptions None None None None None None.

(** [Required<OverlayOptions>] *)
Record RequiredOptions : Type := mkRequired {
  rpadding : Q;
  rradius : Q;
  ropacity : Q;
  rcolor : string;
  ranimate : bool;
  ranimationDuration : Q
}.

Definition defaultOptions : RequiredOptions :=
  mkRequired 8 4 (3 # 4) "black" true 300.

Definition orElse {A : Type} (o : option A) (d : A) : A :=
  match o with Some a => a | None => d end.

(** [{ ...currentOptions, ...options }] *)
Definition mergeOptions (cur : RequiredOptions) (o : OverlayOptions)
  : RequiredOptions :=
  mkRequired (orElse (padding o) (rpadding cur))
             (orElse (radius o) (rradius cur))
             (orElse (opacity o) (ropacity cur))
             (orElse (color o) (rcolor cur))
             (orElse (animate o) (ranimate cur))
             (orElse (animationDuration o) (ranimationDuration cur)).

(** The outer sub-path of [generateOverlayPath]. *)
Definition outerPath (viewportWidth viewportHeight : Q) : string :=
  "M" ++ numToString viewportWidth ++ ",0 L0,0 L0,"
      ++ numToString viewportHeight
      ++ " L" ++ numToString viewportWidth ++ ","
      ++ numToString viewportHeight
      ++ " L" ++ numToString viewportWidth ++ ",0 Z".

(** The inner sub-path of [generateOverlayPath] for the radius [r] it
    has computed. *)
Definition innerPath (x y width height r : Q) : string :=
  if Qltb 0 r then
    "M" ++ numToString (x + r) ++ "," ++ numToString y ++ " "
      ++ "h" ++ numToString (width - 2 * r) ++ " "
      ++ "a" ++ numToString r ++ "," ++ numToString r ++ " 0 0 1 "
             ++ numToString r ++ "," ++ numToString r ++ " "
      ++ "v" ++ numToString (height - 2 * r) ++ " "
      ++ "a" ++ numToString r ++ "," ++ numToString r ++ " 0 0 1 -"
             ++ numToString r ++ "," ++ numToString r ++ " "
      ++ "h-" ++ numToString (width - 2 * r) ++ " "
      ++ "a" ++ numToString r ++ "," ++ numToString r ++ " 0 0 1 -"
             ++ numToString r ++ ",-" ++ numToString r ++ " "
      ++ "v-" ++ numToString (height - 2 * r) ++ " "
      ++ "a" ++ numToString r ++ "," ++ numToString r ++ " 0 0 1 "
             ++ numToString r ++ ",-" ++ numToString r ++ " "
      ++ "Z"
  else
    "M" ++ numToString x ++ "," ++ numToString y ++ " "
      ++ "h" ++ numToString width ++ " "
      ++ "v" ++ numToString height ++ " "
      ++ "h-" ++ numToString width ++ " "
      ++ "v-" ++ numToString height ++ " "
      ++ "Z".

(** [const maxRadius = Math.min(width / 2, height / 2)]
    [const r = Math.max(0, Math.min(radius, maxRadius))] *)
Definition effectiveRadius (width height radius : Q) : Q :=
  let maxRadius := Qmin (width / 2) (height / 2) in
  Qmax 0 (Qmin radius maxRadius).

Definition generateOverlayPath
  (viewportWidth viewportHeight x y width height radius : Q) : string :=
  let r := effectiveRadius width height radius in
  let outer := outerPath viewportWidth viewportHeight in
  let inner := innerPath x y width height r in
  outer ++ " " ++ inner.

(** The cut-out bounds computed by [calculatePath]. *)
Record Cutout : Type := mkCutout {
  cx : Q;
  cy : Q;
  cwidth : Q;
  cheight : Q
}.

Definition cutout (win : Window) (targetRect : DOMRect) (padding : Q)
  : Cutout :=
  let viewportW := innerWidth win in
  let viewportH := innerHeight win in
  let x := Qmax 0 (rx targetRect - padding) in
  let y := Qmax 0 (ry targetRect - padding) in
  let width :=
    Qmax 0 (Qmin (rwidth targetRect + padding * 2) (viewportW - x)) in
  let height :=
    Qmax 0 (Qmin (rheight targetRect + padding * 2) (viewportH - y)) in
  mkCutout x y width height.

(** The state of one [useOverlay()] instance: the two refs and the two
    closure variables. *)
Record State : Type := mkState {
  path : string;
  isVisible : bool;
  currentOptions : RequiredOptions;
  currentTargetRect : option DOMRect
}.

Definition init : State := mkState "" false defaultOptions None.

Definition setPath (p : string) (s : State) : State :=
  mkState p (isVisible s) (currentOptions s) (currentTargetRect s).

Definition calculatePath (win : Window) (targetRect : option DOMRect)
  (options : OverlayOptions) (s : State) : State :=
  let s1 := mkState (path s) (isVisible s)
                    (mergeOptions (currentOptions s) options)
                    (currentTargetRect s) in
  match targetRect with
  | None => setPath "" s1
  | Some rect =>
      let s2 := mkState (path s1) (isVisible s1) (currentOptions s1)
                        (Some rect) in
      let padding := rpadding (currentOptions s2) in
      let radius := rradius (currentOptions s2) in
      let c := cutout win rect padding in
      if Qle_bool (cwidth c) 0 || Qle_bool (cheight c) 0 then setPath "" s2
      else setPath (generateOverlayPath (innerWidth win) (innerHeight win)
                      (cx c) (cy c) (cwidth c) (cheight c) radius) s2
  end.

Definition show (win : Window) (targetRect : DOMRect)
  (options : OverlayOptions) (s : State) : State :=
  let s1 := calculatePath win (Some targetRect) options s in
  mkState (path s1) true (currentOptions s1) (currentTargetRect s1).

Definition hide (s : State) : State :=
  mkState (path s) false (currentOptions s) None.

Definition refresh (win : Window) (targetRect : DOMRect)
  (options : OverlayOptions) (s : State) : State :=
  if isVisible s then calculatePath win (Some targetRect) options s else s.

Definition getOptions (s : State) : RequiredOptions := currentOptions s.

(** The window's resize listener. *)
Definition handleResize (win : Window) (s : State) : State :=
  match isVisible s, currentTargetRect s with
  | true, Some rect => calculatePath win (Some rect) noOptions s
  | _, _ => s
  end.

(** The operations a caller (or the browser) can issue on an overlay. *)
Inductive Op : Type :=
| OpShow (targetRect : DOMRect) (options : OverlayOptions)
| OpHide
| OpRefresh (targetRect : DOMRect) (options : OverlayOptions)
| OpResize (win : Window).

(** One operation, in the window [fst ws]; a resize changes the window and
    then runs the listener. *)
Definition step (ws : Window * State) (op : Op) : Window * State :=
  let (win, s) := ws in
  match op with
  | OpShow r o => (win, show win r o s)
  | OpHide => (win, hide s)
  | OpRefresh r o => (win, refresh win r o s)
  | OpResize win' => (win', handleResize win' s)
  end.

Definition run (win : Window) (ops : list Op) : Window * State :=
  fold_left step ops (win, init).

End Overlay.

Module OverlaySpec.

(** The spec's [clamp(v, lo, hi)]: [v] raised to [lo], then lowered to
    [hi]. *)
Definition clamp (v lo hi : Q) : Q := Qmin (Qmax v lo) hi.

(** The path that belongs to a rectangle in a window under given options:
    empty when the clamped cut-out is degenerate, else the path generated
    for the cut-out. *)
Definition pathFor (win : Window) (rect : DOMRect)
  (opts : Overlay.RequiredOptions) : string :=
  let c := Overlay.cutout win rect (Overlay.rpadding opts) in
  if Qle_bool (Overlay.cwidth c) 0 || Qle_bool (Overlay.cheight c) 0
  then ""
  else Overlay.generateOverlayPath (innerWidth win) (innerHeight win)
         (Overlay.cx c) (Overlay.cy c) (Overlay.cwidth c)
         (Overlay.cheight c) (Overlay.rradius opts).

(** A visible overlay shows the path of its stored rectangle in the current
    window with its current options; a hidden one stores no rectangle. *)
Definition inSync (win : Window) (s : Overlay.State) : Prop :=
  match Overlay.isVisible s, Overlay.currentTargetRect s with
  | true, Some rect =>
      Overlay.path s = pathFor win rect (Overlay.currentOptions s)
  | false, None => True
  | _, _ => False
  end.

(** No operation of the sequence is a [show]. *)
Definition neverShown (ops : list Overlay.Op) : Prop :=
  Forall (fun op => match op with
                    | Overlay.OpShow _ _ => False
                    | _ => True
                    end) ops.

End OverlaySpec.

(* ===================================================================== *)
(** ** useTour *)
(* ===================================================================== *)

(** A DOM node, by identity. *)
Definition HTMLElement : Type := nat.

(** How the lookup of a target ends: with an element, with [null], or with
    an exception.  [document.querySelector] throws a [SyntaxError] for a
    string that is no valid selector (['#1st-step'], say), and a target
    function can throw as well. *)
Inductive Lookup : Type :=
| Found (el : HTMLElement)
| NotFound
| Throws.

(** What the code asks of the document: [document.querySelector] and
    [el.getBoundingClientRect()]. *)
Record Dom : Type := mkDom {
  querySelector : string -> Lookup;
  getBoundingClientRect : HTMLElement -> DOMRect
}.

Module Tour.

Inductive TourStatus : Type := idle | active | paused | completed.

Definition status_eqb (a b : TourStatus) : bool :=
  match a, b with
  | idle, idle | active, active | paused, paused | completed, completed =>
      true
  | _, _ => false
  end.

Inductive Direction : Type := dirNext | dirPrevious.

(** [target: string | (() => HTMLElement | null)] *)
Inductive Target : Type :=
| Selector (selector : string)
| TargetFn (f : unit -> Lookup).

(** The fields of a [TourStep] that [useTour] reads.  A callback is
    modelled by whether the step has it; calling it is an [Event]. *)
Record TourStep : Type := mkStep {
  id : string;
  target : Target;
  onBeforeShow : bool;
  onAfterShow : bool;
  onBeforeHide : bool;
  onAfterHide : bool;
  autoAdvance : option Q
}.

(** The fields of the merged options [opts] that [useTour] reads. *)
Record TourOptions : Type := mkOpts {
  steps : list TourStep;
  keyboardNavigation : bool;
  closeOnClickOutside : bool;
  closeOnEscape : bool;
  scrollToTarget : bool;
  onStart : bool;
  onComplete : bool;
  onSkip : bool;
  onStepChange : bool
}.

(** What the composable does to the outside, in the order it does it.
    [CommitIndex] and [ResolveTarget] mark the write
    [currentStepIndex.value = index] and the call [resolveTarget(step)],
    so that the log shows their place among the callbacks. *)
Inductive Event : Type :=
| CallOnBeforeHide (step : TourStep)
| CallOnBeforeShow (step : TourStep)
| CommitIndex (index : Z)
| ResolveTarget (step : TourStep)
| ScrollIntoView (el : HTMLElement)
| RequestAnimationFrame (el : HTMLElement)
| CallOnAfterHide (step : TourStep)
| CallOnAfterShow (step : TourStep)
| CallOnStepChange (step : TourStep) (direction : Direction)
| SetTimeout (index : Z) (delay : Q)
| CallOnStart
| CallOnSkip
| CallOnComplete.

(** A call of [setStep] that waits at one of its two [await]s, with the
    locals it resumes with. *)
Inductive Suspended : Type :=
| AwaitBeforeHide (prevStep : option TourStep) (nextStep : TourStep)
    (index : Z) (direction : Direction)
| AwaitBeforeShow (prevStep : option TourStep) (nextStep : TourStep)
    (index : Z) (direction : Direction).

(** The four refs of one [useTour()] instance, and what the runtime holds
    for it: the effects so far (oldest first), the suspended [setStep]
    calls, the pending auto-advance timeouts [(index, delay)] and the
    pending animation-frame callbacks (each re-measures its element). *)
Record State : Type := mkState {
  status : TourStatus;
  currentStepIndex : Z;
  targetElement : option HTMLElement;
  targetRect : option DOMRect;
  log : list Event;
  suspended : list Suspended;
  timers : list (Z * Q);
  frames : list HTMLElement
}.

Definition init : State := mkState idle (-1) None None [] [] [] [].

Definition setStatus (v : TourStatus) (s : State) : State :=
  mkState v (currentStepIndex s) (targetElement s) (targetRect s)
          (log s) (suspended s) (timers s) (frames s).

Definition setIndex (v : Z) (s : State) : State :=
  mkState (status s) v (targetElement s) (targetRect s)
          (log s) (suspended s) (timers s) (frames s).

Definition setTargetElement (v : option HTMLElement) (s : State) : State :=
  mkState (status s) (currentStepIndex s) v (targetRect s)
          (log s) (suspended s) (timers s) (frames s).

Definition setTargetRect (v : option DOMRect) (s : State) : State :=
  mkState (status s) (currentStepIndex s) (targetElement s) v
          (log s) (suspended s) (timers s) (frames s).

Definition emit (e : Event) (s : State) : State :=
  mkState (status s) (currentStepIndex s) (targetElement s) (targetRect s)
          (log s ++ [e]) (suspended s) (timers s) (frames s).

Definition setSuspended (v : list Suspended) (s : State) : State :=
  mkState (status s) (currentStepIndex s) (targetElement s) (targetRect s)
          (log s) v (timers s) (frames s).

Definition setTimers (v : list (Z * Q)) (s : State) : State :=
  mkState (status s) (currentStepIndex s) (targetElement s) (targetRect s)
          (log s) (suspended s) v (frames s).

Definition setFrames (v : list HTMLElement) (s : State) : State :=
  mkState (status s) (currentStepIndex s) (targetElement s) (targetRect s)
          (log s) (suspended s) (timers s) v.

(** How a call that can throw ends: the state at its return, or the state
    at the throw. *)
Inductive Outcome : Type :=
| Returned (s : State)
| Thrown (s : State).

(** No caller in [useTour] catches an exception: the writes made before
    the throw stay, and nothing after it runs. *)
Definition stateOf (o : Outcome) : State :=
  match o with
  | Returned s | Thrown s => s
  end.

(** [await]: the call is parked until its promise settles. *)
Definition suspend (k : Suspended) (s : State) : State :=
  setSuspended (suspended s ++ [k]) s.

(** [emit e] when the optional callback is there. *)
Definition emitIf (present : bool) (e : Event) (s : State) : State :=
  if present then emit e s else s.

(** [l] without its [n]th element. *)
Fixpoint removeNth {A : Type} (n : nat) (l : list A) : list A :=
  match n, l with
  | _, [] => []
  | O, _ :: t => t
  | S n', h :: t => h :: removeNth n' t
  end.

(** [steps.findIndex(pred)], [-1] when there is none. *)
Fixpoint findIndexFrom (pred : TourStep -> bool) (l : list TourStep)
  (i : Z) : Z :=
  match l with
  | [] => (-1)%Z
  | h :: t => if pred h then i else findIndexFrom pred t (i + 1)%Z
  end.

Definition findIndex (pred : TourStep -> bool) (l : list TourStep) : Z :=
  findIndexFrom pred l 0%Z.

Section Instance.

Variable opts : TourOptions.
Variable dom : Dom.

(** [opts.steps.length] *)
Definition totalSteps : Z := Z.of_nat (length (steps opts)).

(** [opts.steps[index]], [None] for [undefined]. *)
Definition stepAt (index : Z) : option TourStep :=
  if (index <? 0)%Z then None
  else nth_error (steps opts) (Z.to_nat index).

Definition currentStep (s : State) : option TourStep :=
  if (currentStepIndex s >=? 0)%Z && (currentStepIndex s <? totalSteps)%Z
  then stepAt (currentStepIndex s)
  else None.

Definition isFirstStep (s : State) : bool :=
  (currentStepIndex s =? 0)%Z.

Definition isLastStep (s : State) : bool :=
  (currentStepIndex s =? totalSteps - 1)%Z.

Definition progress (s : State) : Q :=
  if (0 <? totalSteps)%Z
  then (inject_Z (currentStepIndex s + 1) / inject_Z totalSteps) * 100
  else 0.

Definition isActive (s : State) : bool := status_eqb (status s) active.

Definition resolveTarget (step : TourStep) : Lookup :=
  match target step with
  | TargetFn f => f tt
  | Selector sel => querySelector dom sel
  end.

(** [updateTarget]; when [resolveTarget(step)] throws, it is left before
    [targetElement.value = el]. *)
Definition updateTarget (s : State) : Outcome :=
  match currentStep s with
  | None => Returned (setTargetRect None (setTargetElement None s))
  | Some step =>
      let s := emit (ResolveTarget step) s in
      match resolveTarget step with
      | Throws => Thrown s
      | Found e =>
          let s := setTargetElement (Some e) s in
          let s := setTargetRect (Some (getBoundingClientRect dom e)) s in
          if scrollToTarget opts then
            let s := emit (ScrollIntoView e) s in
            Returned (setFrames (frames s ++ [e])
                        (emit (RequestAnimationFrame e) s))
          else Returned s
      | NotFound =>
          Returned (setTargetRect None (setTargetElement None s))
      end
  end.

(** [setStep] from [currentStepIndex.value = index] to its end.  An
    exception out of [updateTarget()] ends the call there: [setStep] is
    [async], so its promise is rejected, and no caller awaits it. *)
Definition finishStep (prevStep : option TourStep) (nextStep : TourStep)
  (index : Z) (direction : Direction) (s : State) : State :=
  let s := emit (CommitIndex index) (setIndex index s) in
  match updateTarget s with
  | Thrown s => s
  | Returned s =>
      let s :=
        match prevStep with
        | Some p => emitIf (onAfterHide p) (CallOnAfterHide p) s
        | None => s
        end in
      let s := emitIf (onAfterShow nextStep) (CallOnAfterShow nextStep) s in
      let s :=
        emitIf (onStepChange opts) (CallOnStepChange nextStep direction) s in
      match autoAdvance nextStep with
      | Some delay =>
          if Qltb 0 delay then
            setTimers (timers s ++ [(index, delay)])
                      (emit (SetTimeout index delay) s)
          else s
      | None => s
      end
  end.

(** [setStep] from [if (nextStep.onBeforeShow)] on. *)
Definition beforeShow (prevStep : option TourStep) (nextStep : TourStep)
  (index : Z) (direction : Direction) (s : State) : State :=
  if onBeforeShow nextStep then
    suspend (AwaitBeforeShow prevStep nextStep index direction)
            (emit (CallOnBeforeShow nextStep) s)
  else finishStep prevStep nextStep index direction s.

(** [setStep], up to its first [await] or, without one, to its end. *)
Definition setStep (index : Z) (direction : Direction) (s : State)
  : State :=
  let prevStep := currentStep s in
  match stepAt index with
  | None => s
  | Some nextStep =>
      match prevStep with
      | Some p =>
          if onBeforeHide p then
            suspend (AwaitBeforeHide prevStep nextStep index direction)
                    (emit (CallOnBeforeHide p) s)
          else beforeShow prevStep nextStep index direction s
      | None => beforeShow prevStep nextStep index direction s
      end
  end.

(** The promise the [n]th suspended call waits for settles: the call
    runs on, to its next [await] or to its end. *)
Definition continue (n : nat) (s : State) : State :=
  match nth_error (suspended s) n with
  | None => s
  | Some k =>
      let s := setSuspended (removeNth n (suspended s)) s in
      match k with
      | AwaitBeforeHide p nx i d => beforeShow p nx i d s
      | AwaitBeforeShow p nx i d => finishStep p nx i d s
      end
  end.

(** All suspended calls run to their end, the oldest first. *)
Fixpoint settleFor (fuel : nat) (s : State) : State :=
  match fuel with
  | O => s
  | S fuel' =>
      match suspended s with
      | [] => s
      | _ :: _ => settleFor fuel' (continue 0 s)
      end
  end.

(** A suspended call has at most two [await]s before it. *)
Definition settle (s : State) : State :=
  settleFor (2 * length (suspended s)) s.

Definition complete (s : State) : State :=
  let s := setStatus completed s in
  let s := setIndex (-1) s in
  let s := setTargetElement None s in
  let s := setTargetRect None s in
  emitIf (onComplete opts) CallOnComplete s.

Definition start (stepIndex : Z) (s : State) : State :=
  if (length (steps opts) =? 0)%nat then s
  else
    let s := setStatus active s in
    let s := setStep stepIndex dirNext s in
    emitIf (onStart opts) CallOnStart s.

Definition stop (s : State) : State :=
  let s := setStatus idle s in
  let s := setIndex (-1) s in
  let s := setTargetElement None s in
  setTargetRect None s.

Definition next (s : State) : State :=
  if negb (status_eqb (status s) active) then s
  else if isLastStep s then complete s
  else setStep (currentStepIndex s + 1) dirNext s.

Definition previous (s : State) : State :=
  if negb (status_eqb (status s) active) || isFirstStep s then s
  else setStep (currentStepIndex s - 1) dirPrevious s.

(** [goTo(stepIndexOrId: number | string)] *)
Definition goTo (stepIndexOrId : Z + string) (s : State) : State :=
  if negb (status_eqb (status s) active) then s
  else
    let go (index : Z) : State :=
      if (index >=? 0)%Z && (index <? totalSteps)%Z then
        let direction :=
          if (index >? currentStepIndex s)%Z then dirNext
          else dirPrevious in
        setStep index direction s
      else s in
    match stepIndexOrId with
    | inr stepId =>
        let index :=
          findIndex (fun st => String.eqb (id st) stepId) (steps opts) in
        if (index =? -1)%Z then s else go index
    | inl index => go index
    end.

Definition skip (s : State) : State :=
  let s := setStatus idle s in
  let s := setIndex (-1) s in
  let s := setTargetElement None s in
  let s := setTargetRect None s in
  emitIf (onSkip opts) CallOnSkip s.

Definition pause (s : State) : State :=
  if status_eqb (status s) active then setStatus paused s else s.

Definition resume (s : State) : State :=
  if status_eqb (status s) paused then setStatus active s else s.

(** The [n]th pending auto-advance timeout fires. *)
Definition fireTimer (n : nat) (s : State) : State :=
  match nth_error (timers s) n with
  | None => s
  | Some (index, _) =>
      let s := setTimers (removeNth n (timers s)) s in
      if status_eqb (status s) active
         && (currentStepIndex s =? index)%Z
      then next s else s
  end.

(** The [n]th pending animation-frame callback runs:
    [targetRect.value = el.getBoundingClientRect()]. *)
Definition runFrame (n : nat) (s : State) : State :=
  match nth_error (frames s) n with
  | None => s
  | Some el =>
      let s := setFrames (removeNth n (frames s)) s in
      setTargetRect (Some (getBoundingClientRect dom el)) s
  end.

Inductive Key : Type :=
| ArrowRight | Enter | ArrowLeft | Escape | OtherKey.

Definition handleKeydown (key : Key) (s : State) : State :=
  if negb (keyboardNavigation opts)
     || negb (status_eqb (status s) active) then s
  else
    match key with
    | ArrowRight | Enter => next s
    | ArrowLeft => previous s
    | Escape => if closeOnEscape opts then skip s else s
    | OtherKey => s
    end.

(** [inside] is [targetElement.value.contains(e.target)]. *)
Definition handleClickOutside (inside : bool) (s : State) : State :=
  if negb (closeOnClickOutside opts)
     || negb (status_eqb (status s) active) then s
  else
    match targetElement s with
    | Some _ => if negb inside then skip s else s
    | None => s
    end.

Definition handleResize (s : State) : State :=
  if status_eqb (status s) active then stateOf (updateTarget s) else s.

End Instance.

(** What can happen to a tour: a control is called, a promise that a
    suspended [setStep] awaits settles, a timeout or an animation frame
    fires, the browser delivers an input event. *)
Inductive Op : Type :=
| OpStart (stepIndex : Z)
| OpStop
| OpNext
| OpPrevious
| OpGoTo (stepIndexOrId : Z + string)
| OpSkip
| OpPause
| OpResume
| OpComplete
| OpContinue (n : nat)
| OpFireTimer (n : nat)
| OpRunFrame (n : nat)
| OpKeydown (key : Key)
| OpClick (inside : bool)
| OpResize.

(** One operation, with the document as it is when it happens. *)
Definition step (opts : TourOptions) (s : State) (o : Dom * Op) : State :=
  let (dom, op) := o in
  match op with
  | OpStart i => start opts dom i s
  | OpStop => stop s
  | OpNext => next opts dom s
  | OpPrevious => previous opts dom s
  | OpGoTo r => goTo opts dom r s
  | OpSkip => skip opts s
  | OpPause => pause s
  | OpResume => resume s
  | OpComplete => complete opts s
  | OpContinue n => continue opts dom n s
  | OpFireTimer n => fireTimer opts dom n s
  | OpRunFrame n => runFrame dom n s
  | OpKeydown k => handleKeydown opts dom k s
  | OpClick b => handleClickOutside opts b s
  | OpResize => handleResize opts dom s
  end.

Definition run (opts : TourOptions) (ops : list (Dom * Op)) : State :=
  fold_left (step opts) ops init.

End Tour.

(** The step-change protocol as the specification words it, as the list of
    effects that one step change must add to the log. *)
Module TourSpec.
Import Tour.

(** An optional callback: called when the step (or the tour) has it. *)
Definition optional (present : bool) (e : Event) : list Event :=
  if present then [e] else [].

Definition ofLeaving (leaving : option TourStep)
  (has : TourStep -> bool) (call : TourStep -> Event) : list Event :=
  match leaving with
  | Some p => optional (has p) (call p)
  | None => []
  end.

(** The element that a lookup returned, if any. *)
Definition found (r : Lookup) : option HTMLElement :=
  match r with
  | Found el => Some el
  | NotFound | Throws => None
  end.

(** The lookup returned (an element or [null]): it did not throw. *)
Definition returns (r : Lookup) : bool :=
  match r with
  | Found _ | NotFound => true
  | Throws => false
  end.

(** The animation frames requested for an element that was found. *)
Definition scrollFrames (opts : TourOptions) (el : option HTMLElement)
  : list HTMLElement :=
  match el with
  | Some e => if scrollToTarget opts then [e] else []
  | None => []
  end.

(** (4) the destination's target element and rectangle are resolved; an
    element that is found is scrolled into view and measured again on the
    next animation frame when [scrollToTarget] is on. *)
Definition resolveEvents (opts : TourOptions) (dom : Dom)
  (dest : TourStep) : list Event :=
  ResolveTarget dest ::
    match found (resolveTarget dom dest) with
    | Some el =>
        if scrollToTarget opts
        then [ScrollIntoView el; RequestAnimationFrame el]
        else []
    | None => []
    end.

(** The deferred [next()] of a destination with [autoAdvance > 0]. *)
Definition autoAdvanceTimer (dest : TourStep) (index : Z)
  : list (Z * Q) :=
  match autoAdvance dest with
  | Some delay => if Qltb 0 delay then [(index, delay)] else []
  | None => []
  end.

Definition autoAdvanceEvents (dest : TourStep) (index : Z) : list Event :=
  map (fun t => SetTimeout (fst t) (snd t)) (autoAdvanceTimer dest index).

(** Actions (3) to (7) and the scheduling of the auto-advance. *)
Definition commitEvents (opts : TourOptions) (dom : Dom)
  (leaving : option TourStep) (dest : TourStep) (index : Z)
  (direction : Direction) : list Event :=
  [CommitIndex index]
    ++ resolveEvents opts dom dest
    ++ ofLeaving leaving onAfterHide CallOnAfterHide
    ++ optional (onAfterShow dest) (CallOnAfterShow dest)
    ++ optional (onStepChange opts) (CallOnStepChange dest direction)
    ++ autoAdvanceEvents dest index.

(** Actions (1) to (7), in order. *)
Definition protocol (opts : TourOptions) (dom : Dom)
  (leaving : option TourStep) (dest : TourStep) (index : Z)
  (direction : Direction) : list Event :=
  ofLeaving leaving onBeforeHide CallOnBeforeHide
    ++ optional (onBeforeShow dest) (CallOnBeforeShow dest)
    ++ commitEvents opts dom leaving dest index direction.

(** What a step change does whose target lookup throws: actions (1) to
    (3) and the call of (4), and nothing after it. *)
Definition interrupted (leaving : option TourStep) (dest : TourStep)
  (index : Z) : list Event :=
  ofLeaving leaving onBeforeHide CallOnBeforeHide
    ++ optional (onBeforeShow dest) (CallOnBeforeShow dest)
    ++ [CommitIndex index; ResolveTarget dest].

(** The effects of one step change, whichever way the lookup ends. *)
Definition commitTrace (opts : TourOptions) (dom : Dom)
  (leaving : option TourStep) (dest : TourStep) (index : Z)
  (direction : Direction) : list Event :=
  if returns (resolveTarget dom dest)
  then commitEvents opts dom leaving dest index direction
  else [CommitIndex index; ResolveTarget dest].

Definition trace (opts : TourOptions) (dom : Dom)
  (leaving : option TourStep) (dest : TourStep) (index : Z)
  (direction : Direction) : list Event :=
  ofLeaving leaving onBeforeHide CallOnBeforeHide
    ++ optional (onBeforeShow dest) (CallOnBeforeShow dest)
    ++ commitTrace opts dom leaving dest index direction.

(** The effects that belong to a step change; the tour-level [onStart],
    [onSkip] and [onComplete] do not. *)
Definition isProtocolEvent (e : Event) : bool :=
  match e with
  | CallOnStart | CallOnSkip | CallOnComplete => false
  | _ => true
  end.





(** [st] at position [i] is the first step whose id is [stepId]. *)
Definition firstWithId (opts : TourOptions) (stepId : string) (i : Z)
  (st : TourStep) : Prop :=
  stepAt opts i = Some st
  /\ id st = stepId
  /\ forall (j : Z) (st' : TourStep),
       (0 <= j < i)%Z -> stepAt opts j = Some st' -> id st' <> stepId.

(** The invariant of the specification's data model. *)
Definition stepInvariant (opts : TourOptions) (s : State) : Prop :=
  (currentStep opts s <> None
   <-> (0 <= currentStepIndex s < totalSteps opts)%Z)
  /\ (targetRect s <> None -> targetElement s <> None).

(** The state in which a step change to [nx] at [i] ends, with the log
    [lg]: with the target resolved and the timeout pending or, when the
    lookup threw, with the index committed and nothing else changed. *)
Definition arrived (opts : TourOptions) (dom : Dom) (s : State)
  (nx : TourStep) (i : Z) (lg : list Event) : State :=
  if returns (resolveTarget dom nx) then
    mkState (status s) i (found (resolveTarget dom nx))
      (option_map (getBoundingClientRect dom) (found (resolveTarget dom nx)))
      lg []
      (timers s ++ autoAdvanceTimer nx i)
      (frames s ++ scrollFrames opts (found (resolveTarget dom nx)))
  else
    mkState (status s) i (targetElement s) (targetRect s) lg []
      (timers s) (frames s).

(** A suspended call resumes towards a step that exists. *)
Definition validSuspended (opts : TourOptions) (k : Suspended) : Prop :=
  match k with
  | AwaitBeforeHide _ nx i _ | AwaitBeforeShow _ nx i _ =>
      stepAt opts i = Some nx
  end.

(** The index is [-1] or that of a step, and so it stays when the
    suspended calls resume. *)
Definition wellFormed (opts : TourOptions) (s : State) : Prop :=
  (currentStepIndex s = -1
   \/ 0 <= currentStepIndex s < totalSteps opts)%Z
  /\ Forall (validSuspended opts) (suspended s).



(** The state after a reset: nothing current, nothing resolved. *)
Definition cleared (s : State) : Prop :=
  currentStepIndex s = (-1)%Z
  /\ targetElement s = None /\ targetRect s = None.

(** No rectangle without an element; with [quiet], also no animation frame
    pending. *)
Definition settledTarget (quiet : bool) (s : State) : Prop :=
  (quiet = true -> frames s = [])
  /\ (targetRect s <> None -> targetElement s <> None).

Definition isRunFrame (op : Op) : bool :=
  match op with
  | OpRunFrame _ => true
  | _ => false
  end.

End TourSpec.

(** A two-step tour and a document for it: the first step has every
    callback and auto-advances, the second has some. *)
Module Demo.
Import Tour.

Definition welcome : TourStep :=
  mkStep "welcome" (Selector "#header") true true true true (Some 1500).

Definition feature : TourStep :=
  mkStep "feature" (Selector ".feature-btn") false true false true None.

(** All options and all tour-level callbacks set. *)
Definition options : TourOptions :=
  mkOpts [welcome; feature] true false true true true true true true.

(** A tour with one plain step, and [scrollToTarget] left at its default
    [true]. *)
Definition single : TourOptions :=
  mkOpts [mkStep "step1" (Selector "#test-target") false false false false
            None]
         true false true true false false false false.

(** A tour without steps. *)
Definition empty : TourOptions :=
  mkOpts [] true false true true true true true true.



(** A document with [#header] and [#test-target], but no
    [.feature-btn]; ['#1st-step'] is no valid selector. *)
Definition document : Dom :=
  mkDom (fun sel =>
           if String.eqb sel "#header" then Found 1%nat
           else if String.eqb sel "#test-target" then Found 2%nat
           else if String.eqb sel "#1st-step" then Throws
           else NotFound)
        (fun _ => mkRect 100 100 200 50).

End Demo.

(* ===================================================================== *)
(** ** The PrimeVue adapter *)
(* ===================================================================== *)

(** The two watchers with which the adapter [SherpaPrimeVue] drives its
    overlay from the tour state that it is given. *)
Module PrimeVue.
Import Tour.






End PrimeVue.

(* ===================================================================== *)
(** ** Properties of the overlay path generator *)
(* ===================================================================== *)

Section NumFacts.

Lemma numToString_Qeq (p q : Q) : p == q -> numToString p = numToString q.
Proof.
  intros H. unfold numToString. now rewrite (Qred_complete _ _ H).
Qed.

Lemma Qltb_Qeq (a p q : Q) : p == q -> Qltb a p = Qltb a q.
Proof.
  intros H. unfold Qltb. now rewrite H.
Qed.

Lemma Qltb_true (a b : Q) : Qltb a b = true <-> a < b.
Proof.
  unfold Qltb. rewrite negb_true_iff.
  destruct (Qle_bool b a) eqn:E.
  - apply Qle_bool_iff in E. split; [discriminate | intros; lra].
  - split; [intros _ | reflexivity].
    destruct (Qlt_le_dec a b) as [L | L]; [exact L |].
    apply Qle_bool_iff in L. congruence.
Qed.

Lemma Qle_bool_false (a b : Q) : Qle_bool a b = false <-> b < a.
Proof.
  split; intros H.
  - destruct (Qlt_le_dec b a) as [L | L]; [exact L |].
    apply Qle_bool_iff in L. congruence.
  - destruct (Qle_bool a b) eqn:E; [| reflexivity].
    apply Qle_bool_iff in E. lra.
Qed.

End NumFacts.

#[global] Instance numToString_Proper : Proper (Qeq ==> eq) numToString.
Proof. intros p q H. now apply numToString_Qeq. Qed.

#[global] Instance Qltb_Proper : Proper (Qeq ==> Qeq ==> eq) Qltb.
Proof. intros a b H p q H'. unfold Qltb. now rewrite H, H'. Qed.


(** Halving is multiplication by [1 # 2], which linear arithmetic takes. *)
Ltac qhalf := unfold Qdiv in *; change (/ 2) with (1 # 2) in *.

(** Case analysis on every [Qmax] and [Qmin] of the goal, innermost first. *)
Ltac no_minmax t :=
  lazymatch t with
  | context [Qmax _ _] => fail
  | context [Qmin _ _] => fail
  | _ => idtac
  end.

Ltac qcases :=
  repeat match goal with
    | |- context [Qmax ?a ?b] =>
        no_minmax a; no_minmax b;
        let H := fresh "Hmax" in
        destruct (Q.max_spec a b) as [[? H] | [? H]];
        generalize dependent (Qmax a b); intros
    | |- context [Qmin ?a ?b] =>
        no_minmax a; no_minmax b;
        let H := fresh "Hmin" in
        destruct (Q.min_spec a b) as [[? H] | [? H]];
        generalize dependent (Qmin a b); intros
    end.

Module OverlayFacts.
Import Overlay OverlaySpec.

Lemma innerPath_Qeq (x y w h r r' : Q) :
  r == r' -> innerPath x y w h r = innerPath x y w h r'.
Proof.
  intros H. unfold innerPath.
  rewrite (Qltb_Qeq 0 r r' H), (numToString_Qeq r r' H).
  rewrite (numToString_Qeq (x + r) (x + r')) by now rewrite H.
  rewrite (numToString_Qeq (w - 2 * r) (w - 2 * r')) by now rewrite H.
  rewrite (numToString_Qeq (h - 2 * r) (h - 2 * r')) by now rewrite H.
  reflexivity.
Qed.

Lemma effectiveRadius_clamp (w h radius : Q) :
  0 <= w -> 0 <= h ->
  effectiveRadius w h radius == clamp radius 0 (Qmin w h / 2).
Proof.
  intros Hw Hh. unfold effectiveRadius, clamp. qhalf.
  qcases; lra.
Qed.

Lemma effectiveRadius_bounds (w h radius : Q) :
  0 <= w -> 0 <= h ->
  let r := effectiveRadius w h radius in
  0 <= r /\ 2 * r <= w /\ 2 * r <= h /\ r <= Qmax 0 radius.
Proof.
  intros Hw Hh. unfold effectiveRadius. cbv zeta. qhalf.
  qcases; lra.
Qed.

Lemma cutout_nonneg (win : Window) (rect : DOMRect) (p : Q) :
  let c := cutout win rect p in
  0 <= cx c /\ 0 <= cy c /\ 0 <= cwidth c /\ 0 <= cheight c.
Proof.
  unfold cutout. cbn. repeat split; apply Q.le_max_l.
Qed.

Lemma generateOverlayPath_nonempty (vw vh x y w h radius : Q) :
  generateOverlayPath vw vh x y w h radius <> "".
Proof.
  unfold generateOverlayPath, outerPath. cbn. discriminate.
Qed.

(** What [calculatePath] leaves in [path] for a rectangle. *)
Lemma calculatePath_path (win : Window) (rect : DOMRect)
  (o : OverlayOptions) (s : State) :
  let opts := mergeOptions (currentOptions s) o in
  let c := cutout win rect (rpadding opts) in
  path (calculatePath win (Some rect) o s)
  = if Qle_bool (cwidth c) 0 || Qle_bool (cheight c) 0 then ""
    else generateOverlayPath (innerWidth win) (innerHeight win)
           (cx c) (cy c) (cwidth c) (cheight c) (rradius opts).
Proof.
  unfold calculatePath. cbn.
  destruct (_ || _); reflexivity.
Qed.

Lemma calculatePath_options (win : Window) (r : option DOMRect)
  (o : OverlayOptions) (s : State) :
  currentOptions (calculatePath win r o s)
  = mergeOptions (currentOptions s) o.
Proof.
  unfold calculatePath. destruct r as [rect |]; cbn; [| reflexivity].
  destruct (_ || _); reflexivity.
Qed.

Lemma calculatePath_rect (win : Window) (rect : DOMRect)
  (o : OverlayOptions) (s : State) :
  currentTargetRect (calculatePath win (Some rect) o s) = Some rect.
Proof.
  unfold calculatePath. cbn. destruct (_ || _); reflexivity.
Qed.

Lemma calculatePath_visible (win : Window) (r : option DOMRect)
  (o : OverlayOptions) (s : State) :
  isVisible (calculatePath win r o s) = isVisible s.
Proof.
  unfold calculatePath. destruct r as [rect |]; cbn; [| reflexivity].
  destruct (_ || _); reflexivity.
Qed.

(** An overlay that was never shown is as it was created. *)
Lemma never_shown_init (win : Window) (ops : list Op) :
  neverShown ops -> snd (run win ops) = init.
Proof.
  unfold run. intros N.
  assert (G : forall w, snd (fold_left step ops (w, init)) = init).
  { induction N as [| op ops Hop N IH]; intros w; cbn [fold_left];
      [reflexivity |].
    destruct op; cbn [step]; try contradiction; apply IH. }
  apply G.
Qed.

End OverlayFacts.

(* ===================================================================== *)
(** ** The overlay: the path of [show], the radius, the cut-out bounds *)
(* ===================================================================== *)

Section OverlayClaims.
Import Overlay OverlaySpec OverlayFacts.

(** C1: in a 1024 x 768 viewport, [show({x:100, y:100, width:200, height:50})]
    on a fresh overlay (padding 8, radius 4) makes the overlay visible with a
    path that starts with the outer sub-path
    ["M1024,0 L0,0 L0,768 L1024,768 L1024,0 Z"], followed after one space by
    the inner sub-path of the cut-out (92, 92, 216, 66) with radius 4, which
    begins with ["M96,92"]. *)
Theorem C1_show_default_path :
  let s := show mockWindow (mkRect 100 100 200 50) noOptions init in
  exists inner : string,
    path s = "M1024,0 L0,0 L0,768 L1024,768 L1024,0 Z" ++ " " ++ inner
    /\ outerPath 1024 768 = "M1024,0 L0,0 L0,768 L1024,768 L1024,0 Z"
    /\ inner = innerPath 92 92 216 66 4
    /\ inner = "M96,92 h208 a4,4 0 0 1 4,4 v58 a4,4 0 0 1 -4,4 h-208 a4,4 0 0 1 -4,-4 v-58 a4,4 0 0 1 4,-4 Z"
    /\ String.prefix "M96,92" inner = true
    /\ isVisible s = true.
Proof.
  cbv zeta. exists (innerPath 92 92 216 66 4).
  repeat split; vm_compute; reflexivity.
Qed.

(** C2: whatever the overlay state, the window, the rectangle and the
    options, the path that [show] leaves is empty when the cut-out is
    degenerate, and otherwise is the outer sub-path followed by the inner
    sub-path drawn with the radius
    [clamp(requestedRadius, 0, min(cutoutWidth, cutoutHeight) / 2)], the
    cut-out being the padded rectangle clamped to the viewport; that radius
    lies between 0 and half of each cut-out side.  For a 20 x 10 rectangle,
    padding 0 and requested radius 100, every arc of the path has radius 5. *)
Theorem C2_effective_radius :
  (forall (win : Window) (rect : DOMRect) (o : OverlayOptions) (s : State),
      let s' := show win rect o s in
      let c := cutout win rect (rpadding (currentOptions s')) in
      let r := clamp (rradius (currentOptions s')) 0
                     (Qmin (cwidth c) (cheight c) / 2) in
      (path s' =
         if Qle_bool (cwidth c) 0 || Qle_bool (cheight c) 0 then ""
         else outerPath (innerWidth win) (innerHeight win) ++ " "
                ++ innerPath (cx c) (cy c) (cwidth c) (cheight c) r)
      /\ effectiveRadius (cwidth c) (cheight c) (rradius (currentOptions s'))
         == r
      /\ 0 <= r /\ 2 * r <= cwidth c /\ 2 * r <= cheight c)
  /\ (let s' := show mockWindow (mkRect 100 100 20 10)
                  (mkOptions (Some 0) (Some 100) None None None None) init in
      clamp 100 0 (Qmin 20 10 / 2) == 5
      /\ path s' = "M1024,0 L0,0 L0,768 L1024,768 L1024,0 Z "
                   ++ innerPath 100 100 20 10 5
      /\ innerPath 100 100 20 10 5
         = "M105,100 h10 a5,5 0 0 1 5,5 v0 a5,5 0 0 1 -5,5 h-10 a5,5 0 0 1 -5,-5 v-0 a5,5 0 0 1 5,-5 Z").
Proof.
  split.
  - intros win rect o s s' c r.
    assert (Hopts : currentOptions s' = mergeOptions (currentOptions s) o).
    { unfold s', show. cbn [currentOptions].
      apply calculatePath_options. }
    destruct (cutout_nonneg win rect (rpadding (currentOptions s')))
      as (_ & _ & Hw & Hh).
    fold c in Hw, Hh.
    assert (Hr : effectiveRadius (cwidth c) (cheight c)
                   (rradius (currentOptions s')) == r)
      by (apply effectiveRadius_clamp; assumption).
    split; [| split; [exact Hr |]].
    + unfold s' at 1, show. cbn [path].
      rewrite calculatePath_path. cbv zeta.
      rewrite <- Hopts. fold c.
      destruct (Qle_bool (cwidth c) 0 || Qle_bool (cheight c) 0);
        [reflexivity |].
      unfold generateOverlayPath.
      now rewrite (innerPath_Qeq _ _ _ _ _ _ Hr).
    + destruct (effectiveRadius_bounds (cwidth c) (cheight c)
                  (rradius (currentOptions s')) Hw Hh) as (B0 & B1 & B2 & _).
      rewrite Hr in B0, B1, B2. auto.
  - cbv zeta. repeat split; vm_compute; reflexivity.
Qed.

(** C3, counterexample: for a target off the right edge of the viewport
    ([x = 2000], viewport 1024 x 768, padding 8) the cut-out starts at 1992
    with width 0, so its far edge is not within the viewport. *)
Lemma C3_far_edge_counterexample :
  let c := cutout mockWindow (mkRect 2000 100 200 50) 8 in
  ~ (0 <= cx c /\ 0 <= cy c
     /\ cx c + cwidth c <= innerWidth mockWindow
     /\ cy c + cheight c <= innerHeight mockWindow).
Proof.
  cbv zeta. intros (_ & _ & H & _). vm_compute in H. apply H. reflexivity.
Qed.

(** C3, amended: for every rectangle, options, window and overlay state,
    the cut-out that [calculatePath] computes has a non-negative origin and
    non-negative sides; its far edge is within the viewport on each axis on
    which the origin is (so it never exceeds the larger of viewport and
    origin), which is the case on both axes whenever a path is produced; and
    the path is empty exactly when the width or the height is zero (they
    are never negative). *)
Theorem C3_cutout_bounds :
  forall (win : Window) (rect : DOMRect) (o : OverlayOptions) (s : State),
    let s' := calculatePath win (Some rect) o s in
    let c := cutout win rect (rpadding (currentOptions s')) in
    0 <= cx c /\ 0 <= cy c /\ 0 <= cwidth c /\ 0 <= cheight c
    /\ cx c + cwidth c <= Qmax (innerWidth win) (cx c)
    /\ cy c + cheight c <= Qmax (innerHeight win) (cy c)
    /\ (path s' = "" <-> (cwidth c <= 0 \/ cheight c <= 0))
    /\ (path s' = "" <-> (cwidth c == 0 \/ cheight c == 0))
    /\ (path s' <> "" ->
        cx c + cwidth c <= innerWidth win
        /\ cy c + cheight c <= innerHeight win).
Proof.
  intros win rect o s s' c.
  assert (Hopts : currentOptions s' = mergeOptions (currentOptions s) o)
    by apply calculatePath_options.
  destruct (cutout_nonneg win rect (rpadding (currentOptions s')))
    as (Hx & Hy & Hw & Hh).
  fold c in Hx, Hy, Hw, Hh.
  assert (Hpath : path s' = "" <-> (cwidth c <= 0 \/ cheight c <= 0)).
  { unfold s'. rewrite calculatePath_path. cbv zeta.
    rewrite <- Hopts. fold c.
    destruct (Qle_bool (cwidth c) 0) eqn:Ew;
      [apply Qle_bool_iff in Ew; cbn [orb]; tauto |].
    destruct (Qle_bool (cheight c) 0) eqn:Eh;
      [apply Qle_bool_iff in Eh; cbn [orb]; tauto |].
    apply Qle_bool_false in Ew, Eh. cbn [orb]. split.
    - intros E. now apply generateOverlayPath_nonempty in E.
    - intros [L | L]; lra. }
  assert (Ex : cx c + cwidth c <= Qmax (innerWidth win) (cx c)
               /\ (0 < cwidth c -> cx c + cwidth c <= innerWidth win)).
  { unfold c, cutout. cbn [cx cwidth].
    generalize (Qmax 0 (rx rect - rpadding (currentOptions s'))). intros x.
    split; [| intros P; revert P]; qcases; try lra. }
  assert (Ey : cy c + cheight c <= Qmax (innerHeight win) (cy c)
               /\ (0 < cheight c -> cy c + cheight c <= innerHeight win)).
  { unfold c, cutout. cbn [cy cheight].
    generalize (Qmax 0 (ry rect - rpadding (currentOptions s'))). intros y.
    split; [| intros P; revert P]; qcases; try lra. }
  repeat split; try tauto; try assumption.
  - intros E. apply Hpath in E. destruct E; [left | right]; lra.
  - intros [E | E]; apply Hpath; [left | right]; lra.
  - apply Ex. destruct (Qlt_le_dec 0 (cwidth c)); [assumption |].
    exfalso. apply H. apply Hpath. now left.
  - apply Ey. destruct (Qlt_le_dec 0 (cheight c)); [assumption |].
    exfalso. apply H. apply Hpath. now right.
Qed.

Lemma C3_cutout_bounds_witness :
  let c := cutout mockWindow (mkRect 100 100 200 50) 8 in
  cx c + cwidth c <= innerWidth mockWindow
  /\ cy c + cheight c <= innerHeight mockWindow.
Proof.
  apply (C3_cutout_bounds mockWindow (mkRect 100 100 200 50) noOptions init).
  vm_compute. discriminate.
Defined.

(** C8, counterexample: after [show] and [hide] the overlay is not visible
    but its path is still the one that [show] produced, so the path that a
    [refresh] leaves there is not empty; and a [refresh] after [show] with a
    rectangle that differs from the old one only left of the viewport
    ([x = -30] instead of [x = -20]) produces the same path again. *)
Lemma C8_refresh_counterexample :
  (let s := hide (show mockWindow (mkRect 100 100 200 50) noOptions init) in
   isVisible s = false
   /\ path (refresh mockWindow (mkRect 200 200 200 50) noOptions s) <> "")
  /\ (let old := mkRect (-20) 100 200 50 in
      let new := mkRect (-30) 100 200 50 in
      let s1 := show mockWindow old noOptions init in
      let s2 := refresh mockWindow new noOptions s1 in
      ~ rx new == rx old /\ path s2 = path s1).
Proof.
  split; cbv zeta.
  - split; [reflexivity |]. vm_compute. discriminate.
  - split; [vm_compute; discriminate | vm_compute; reflexivity].
Qed.

(** C8, amended: after every sequence of overlay operations, a [refresh]
    issued while the overlay is not visible changes nothing, so the path
    stays what it was, and that is the empty path when the overlay was never
    shown ([hide] does not clear the path); a [refresh] issued while it is
    visible recomputes the path as [show] would.  After [show], a [refresh]
    with a rectangle leaves the overlay visible, and the path is then the
    one generated from the new rectangle (empty when its cut-out is
    degenerate), the path that [show] would produce for it; for the
    rectangles (100, 100, 200, 50) and (200, 200, 200, 50) the new path
    differs from the old one. *)
Theorem C8_refresh :
  (forall (win0 : Window) (ops : list Op) (rect : DOMRect)
          (o : OverlayOptions),
      let win := fst (run win0 ops) in
      let s := snd (run win0 ops) in
      (isVisible s = false -> refresh win rect o s = s)
      /\ (neverShown ops -> path (refresh win rect o s) = "")
      /\ (isVisible s = true ->
          refresh win rect o s = calculatePath win (Some rect) o s
          /\ path (refresh win rect o s) = path (show win rect o s)))
  /\ (forall (win : Window) (s0 : State) (r1 r2 : DOMRect)
             (o1 o2 : OverlayOptions),
        let s1 := show win r1 o1 s0 in
        let s2 := refresh win r2 o2 s1 in
        let c := cutout win r2 (rpadding (currentOptions s2)) in
        isVisible s2 = true
        /\ currentOptions s2 = mergeOptions (currentOptions s1) o2
        /\ currentTargetRect s2 = Some r2
        /\ path s2
           = (if Qle_bool (cwidth c) 0 || Qle_bool (cheight c) 0 then ""
              else generateOverlayPath (innerWidth win) (innerHeight win)
                     (cx c) (cy c) (cwidth c) (cheight c)
                     (rradius (currentOptions s2)))
        /\ path s2 = path (show win r2 o2 s1))
  /\ (let s1 := show mockWindow (mkRect 100 100 200 50) noOptions init in
      let s2 := refresh mockWindow (mkRect 200 200 200 50) noOptions s1 in
      path s2 <> path s1).
Proof.
  split; [| split].
  - intros win0 ops rect o win s. split; [| split].
    + intros V. unfold refresh. now rewrite V.
    + intros N. unfold s. rewrite (never_shown_init win0 ops N). reflexivity.
    + intros V. unfold refresh. rewrite V. split; reflexivity.
  - intros win s0 r1 r2 o1 o2 s1 s2 c.
    assert (E2 : s2 = calculatePath win (Some r2) o2 s1) by reflexivity.
    assert (O2 : currentOptions s2 = mergeOptions (currentOptions s1) o2)
      by (rewrite E2; apply calculatePath_options).
    split; [rewrite E2; now rewrite calculatePath_visible |].
    split; [exact O2 |].
    split; [rewrite E2; apply calculatePath_rect |].
    split; [| reflexivity].
    unfold c. rewrite O2, E2. apply calculatePath_path.
  - cbv zeta. vm_compute. discriminate.
Qed.

Lemma C8_refresh_witness :
  (let win := fst (run mockWindow
                     [OpShow (mkRect 100 100 200 50) noOptions; OpHide]) in
   let s := snd (run mockWindow
                   [OpShow (mkRect 100 100 200 50) noOptions; OpHide]) in
   refresh win (mkRect 200 200 200 50) noOptions s = s)
  /\ path (refresh mockWindow (mkRect 200 200 200 50) noOptions init) = ""
  /\ (let s := snd (run mockWindow
                      [OpShow (mkRect 100 100 200 50) noOptions]) in
      refresh mockWindow (mkRect 200 200 200 50) noOptions s
      = calculatePath mockWindow (Some (mkRect 200 200 200 50)) noOptions s
      /\ path (refresh mockWindow (mkRect 200 200 200 50) noOptions s)
         = path (show mockWindow (mkRect 200 200 200 50) noOptions s)).
Proof.
  split; [| split].
  - apply (proj1 C8_refresh mockWindow
             [OpShow (mkRect 100 100 200 50) noOptions; OpHide]).
    reflexivity.
  - apply (proj1 C8_refresh mockWindow [] (mkRect 200 200 200 50) noOptions).
    constructor.
  - apply (proj1 C8_refresh mockWindow
             [OpShow (mkRect 100 100 200 50) noOptions]).
    reflexivity.
Defined.

End OverlayClaims.

(* ===================================================================== *)
(** ** Properties of the tour sequencer *)
(* ===================================================================== *)

Module TourFacts.
Import Tour TourSpec.
Local Open Scope list_scope.

(** The setters open to records, and the projections of records reduce. *)
Ltac setters :=
  unfold suspend, emit, setFrames, setTimers, setSuspended, setTargetRect,
    setTargetElement, setIndex, setStatus in *;
  cbn [status currentStepIndex targetElement targetRect log suspended
       timers frames] in *.

Section Facts.

Variable opts : TourOptions.
Variable dom : Dom.

Lemma stepAt_range (i : Z) (st : TourStep) :
  stepAt opts i = Some st -> (0 <= i < totalSteps opts)%Z.
Proof.
  unfold stepAt, totalSteps.
  destruct (i <? 0)%Z eqn:E; [discriminate |].
  intros H. apply Z.ltb_ge in E.
  assert (Z.to_nat i < length (steps opts))%nat
    by (apply nth_error_Some; congruence).
  lia.
Qed.

Lemma stepAt_in_range (i : Z) :
  (0 <= i < totalSteps opts)%Z -> exists st, stepAt opts i = Some st.
Proof.
  unfold stepAt, totalSteps. intros H.
  destruct (i <? 0)%Z eqn:E; [apply Z.ltb_lt in E; lia |].
  destruct (nth_error (steps opts) (Z.to_nat i)) as [st |] eqn:N;
    [now exists st |].
  apply nth_error_None in N. lia.
Qed.

Lemma stepAt_out_of_range (i : Z) :
  (i < 0 \/ totalSteps opts <= i)%Z -> stepAt opts i = None.
Proof.
  intros H. destruct (stepAt opts i) as [st |] eqn:E; [| reflexivity].
  apply stepAt_range in E. lia.
Qed.

Lemma currentStep_at (s : State) :
  (0 <= currentStepIndex s < totalSteps opts)%Z ->
  currentStep opts s = stepAt opts (currentStepIndex s).
Proof.
  intros H. unfold currentStep.
  replace (currentStepIndex s >=? 0)%Z with true by (symmetry; lia).
  replace (currentStepIndex s <? totalSteps opts)%Z with true
    by (symmetry; lia).
  reflexivity.
Qed.

Lemma currentStep_outside (s : State) :
  ~ (0 <= currentStepIndex s < totalSteps opts)%Z ->
  currentStep opts s = None.
Proof.
  intros H. unfold currentStep.
  destruct (currentStepIndex s >=? 0)%Z eqn:A; [| reflexivity].
  destruct (currentStepIndex s <? totalSteps opts)%Z eqn:B;
    [| reflexivity].
  lia.
Qed.

(** [currentStep] is there exactly when the index is that of a step. *)
Lemma currentStep_iff (s : State) :
  currentStep opts s <> None
  <-> (0 <= currentStepIndex s < totalSteps opts)%Z.
Proof.
  split.
  - intros H.
    destruct (Z_le_dec 0 (currentStepIndex s));
      destruct (Z_lt_dec (currentStepIndex s) (totalSteps opts));
      try lia; exfalso; apply H; apply currentStep_outside; lia.
  - intros H. rewrite (currentStep_at s H).
    destruct (stepAt_in_range _ H) as [st E]. congruence.
Qed.

Lemma log_emitIf (b : bool) (e : Event) (s : State) :
  log (emitIf b e s) = log s ++ optional b e.
Proof.
  destruct b; cbn; [reflexivity | now rewrite app_nil_r].
Qed.

Lemma emitIf_record (b : bool) (e : Event) (st0 : TourStatus) (ix : Z)
  (te : option HTMLElement) (tr : option DOMRect) (lg : list Event)
  (su : list Suspended) (ti : list (Z * Q)) (fr : list HTMLElement) :
  emitIf b e (mkState st0 ix te tr lg su ti fr)
  = mkState st0 ix te tr (lg ++ optional b e) su ti fr.
Proof.
  destruct b; cbn; [reflexivity | now rewrite app_nil_r].
Qed.

(** What [updateTarget] does once the index is that of [st]. *)
Lemma updateTarget_at (st : TourStep) (s : State) :
  currentStep opts s = Some st ->
  updateTarget opts dom s
  = if returns (resolveTarget dom st) then
      Returned
        (mkState (status s) (currentStepIndex s)
           (found (resolveTarget dom st))
           (option_map (getBoundingClientRect dom)
              (found (resolveTarget dom st)))
           (log s ++ resolveEvents opts dom st)
           (suspended s) (timers s)
           (frames s ++ scrollFrames opts (found (resolveTarget dom st))))
    else Thrown (emit (ResolveTarget st) s).
Proof.
  intros H. unfold updateTarget, resolveEvents, scrollFrames. rewrite H.
  destruct s as [st0 ix te tr lg su ti fr].
  destruct (resolveTarget dom st) as [el | |];
    [destruct (scrollToTarget opts) | |]; setters;
    cbn [option_map found returns];
    rewrite ?app_nil_r, <- ?app_assoc; reflexivity.
Qed.

Lemma updateTarget_none (s : State) :
  currentStep opts s = None ->
  updateTarget opts dom s
  = Returned (mkState (status s) (currentStepIndex s) None None
                (log s) (suspended s) (timers s) (frames s)).
Proof.
  intros H. unfold updateTarget. rewrite H.
  destruct s; reflexivity.
Qed.

(** Whichever way it ends, [updateTarget] leaves status, index and the
    suspended calls as they are. *)
Lemma updateTarget_keeps (s : State) :
  status (stateOf (updateTarget opts dom s)) = status s
  /\ currentStepIndex (stateOf (updateTarget opts dom s))
     = currentStepIndex s
  /\ suspended (stateOf (updateTarget opts dom s)) = suspended s
  /\ timers (stateOf (updateTarget opts dom s)) = timers s.
Proof.
  destruct (currentStep opts s) as [st |] eqn:E.
  - rewrite (updateTarget_at st s E).
    destruct (returns (resolveTarget dom st)); cbn; auto.
  - rewrite (updateTarget_none s E). cbn. auto.
Qed.

(** The second half of [setStep], field by field. *)
Lemma finishStep_spec (p : option TourStep) (nx : TourStep) (i : Z)
  (d : Direction) (s : State) :
  stepAt opts i = Some nx ->
  finishStep opts dom p nx i d s
  = setSuspended (suspended s)
      (arrived opts dom s nx i (log s ++ commitTrace opts dom p nx i d)).
Proof.
  intros H. unfold finishStep.
  assert (C : currentStep opts (emit (CommitIndex i) (setIndex i s))
              = Some nx).
  { rewrite currentStep_at; cbn; [exact H |].
    now apply stepAt_range in H. }
  rewrite (updateTarget_at nx _ C). unfold arrived, commitTrace.
  destruct (returns (resolveTarget dom nx));
    [| setters; now rewrite <- app_assoc].
  unfold commitEvents, autoAdvanceEvents, autoAdvanceTimer. setters.
  assert (P : forall t,
             match p with
             | Some q => emitIf (onAfterHide q) (CallOnAfterHide q) t
             | None => t
             end
             = emitIf (match p with Some q => onAfterHide q
                                  | None => false end)
                      (match p with Some q => CallOnAfterHide q
                                  | None => CallOnStart end) t)
    by (destruct p; reflexivity).
  rewrite P, !emitIf_record.
  assert (O : optional (match p with Some q => onAfterHide q
                                   | None => false end)
                       (match p with Some q => CallOnAfterHide q
                                   | None => CallOnStart end)
              = ofLeaving p onAfterHide CallOnAfterHide)
    by (destruct p; reflexivity).
  rewrite O.
  destruct (autoAdvance nx) as [delay |];
    [destruct (Qltb 0 delay) |]; setters; cbn [map fst snd];
    rewrite ?app_nil_r, <- ?app_assoc; reflexivity.
Qed.

(** What a step change sets whichever way the lookup ends. *)
Lemma arrived_kept (s : State) (nx : TourStep) (i : Z) (lg : list Event) :
  status (arrived opts dom s nx i lg) = status s
  /\ currentStepIndex (arrived opts dom s nx i lg) = i
  /\ log (arrived opts dom s nx i lg) = lg
  /\ suspended (arrived opts dom s nx i lg) = [].
Proof.
  unfold arrived. destruct (returns (resolveTarget dom nx)); cbn; auto.
Qed.

Lemma arrived_returns (s : State) (nx : TourStep) (i : Z)
  (lg : list Event) :
  returns (resolveTarget dom nx) = true ->
  arrived opts dom s nx i lg
  = mkState (status s) i (found (resolveTarget dom nx))
      (option_map (getBoundingClientRect dom) (found (resolveTarget dom nx)))
      lg [] (timers s ++ autoAdvanceTimer nx i)
      (frames s ++ scrollFrames opts (found (resolveTarget dom nx))).
Proof.
  intros R. unfold arrived. now rewrite R.
Qed.

Lemma arrived_throws (s : State) (nx : TourStep) (i : Z)
  (lg : list Event) :
  returns (resolveTarget dom nx) = false ->
  arrived opts dom s nx i lg
  = mkState (status s) i (targetElement s) (targetRect s) lg []
      (timers s) (frames s).
Proof.
  intros R. unfold arrived. now rewrite R.
Qed.

Lemma settleFor_quiescent (fuel : nat) (s : State) :
  suspended s = [] -> settleFor opts dom fuel s = s.
Proof.
  intros H. destruct fuel; cbn; [reflexivity |]. now rewrite H.
Qed.

Lemma settle_quiescent (s : State) :
  suspended s = [] -> settle opts dom s = s.
Proof.
  intros H. unfold settle. now apply settleFor_quiescent.
Qed.

Lemma settleFor_suspended (fuel : nat) (s : State) (k : Suspended)
  (ks : list Suspended) :
  suspended s = k :: ks ->
  settleFor opts dom (S fuel) s
  = settleFor opts dom fuel (continue opts dom 0 s).
Proof.
  intros H. cbn [settleFor]. now rewrite H.
Qed.

Lemma continue_first (s : State) (k : Suspended) (ks : list Suspended) :
  suspended s = k :: ks ->
  continue opts dom 0 s
  = match k with
    | AwaitBeforeHide p nx i d =>
        beforeShow opts dom p nx i d (setSuspended ks s)
    | AwaitBeforeShow p nx i d =>
        finishStep opts dom p nx i d (setSuspended ks s)
    end.
Proof.
  intros H. unfold continue. now rewrite H.
Qed.

(** A single call suspended at its second [await] runs to its end. *)
Lemma settle_awaitBeforeShow (p : option TourStep) (nx : TourStep)
  (i : Z) (d : Direction) (s : State) :
  stepAt opts i = Some nx ->
  suspended s = [AwaitBeforeShow p nx i d] ->
  settle opts dom s = finishStep opts dom p nx i d (setSuspended [] s).
Proof.
  intros H E. unfold settle. rewrite E.
  change (2 * length [AwaitBeforeShow p nx i d])%nat with 2%nat.
  rewrite (settleFor_suspended _ _ _ _ E), (continue_first _ _ _ E).
  apply settleFor_quiescent.
  now rewrite (finishStep_spec _ _ _ _ _ H).
Qed.

(** A single call suspended at its first [await] runs to its end,
    calling [onBeforeShow] on the way. *)
Lemma settle_awaitBeforeHide (p : option TourStep) (nx : TourStep)
  (i : Z) (d : Direction) (s : State) :
  stepAt opts i = Some nx ->
  suspended s = [AwaitBeforeHide p nx i d] ->
  settle opts dom s
  = finishStep opts dom p nx i d
      (emitIf (onBeforeShow nx) (CallOnBeforeShow nx)
         (setSuspended [] s)).
Proof.
  intros H E. unfold settle. rewrite E.
  change (2 * length [AwaitBeforeHide p nx i d])%nat with 2%nat.
  rewrite (settleFor_suspended _ _ _ _ E), (continue_first _ _ _ E).
  unfold beforeShow. destruct (onBeforeShow nx); cbn [emitIf].
  - set (t := emit (CallOnBeforeShow nx) (setSuspended [] s)).
    assert (Et : suspended (suspend (AwaitBeforeShow p nx i d) t)
                 = [AwaitBeforeShow p nx i d]) by reflexivity.
    rewrite (settleFor_suspended _ _ _ _ Et), (continue_first _ _ _ Et).
    cbn [settleFor]. reflexivity.
  - apply settleFor_quiescent.
    now rewrite (finishStep_spec _ _ _ _ _ H).
Qed.

Lemma filter_all {A : Type} (f : A -> bool) (l : list A) :
  forallb f l = true -> filter f l = l.
Proof.
  induction l as [| a l IH]; cbn; [reflexivity |].
  intros H. apply andb_prop in H. destruct H as [Ha Hl].
  rewrite Ha. now rewrite IH.
Qed.

Lemma filter_optional_other (b : bool) (e : Event) :
  isProtocolEvent e = false -> filter isProtocolEvent (optional b e) = [].
Proof.
  intros H. destruct b; cbn; [now rewrite H | reflexivity].
Qed.

Lemma forallb_optional (b : bool) (e : Event) :
  isProtocolEvent e = true ->
  forallb isProtocolEvent (optional b e) = true.
Proof.
  intros H. destruct b; cbn; [now rewrite H | reflexivity].
Qed.

Lemma forallb_ofLeaving (p : option TourStep) (has : TourStep -> bool)
  (call : TourStep -> Event) :
  (forall st, isProtocolEvent (call st) = true) ->
  forallb isProtocolEvent (ofLeaving p has call) = true.
Proof.
  intros H. destruct p as [p |]; cbn; [| reflexivity].
  now apply forallb_optional.
Qed.

Lemma forallb_commitEvents (p : option TourStep) (nx : TourStep) (i : Z)
  (d : Direction) :
  forallb isProtocolEvent (commitEvents opts dom p nx i d) = true.
Proof.
  unfold commitEvents. rewrite !forallb_app.
  rewrite forallb_ofLeaving by reflexivity.
  rewrite !forallb_optional by reflexivity.
  unfold resolveEvents, autoAdvanceEvents, autoAdvanceTimer.
  destruct (found (resolveTarget dom nx));
    [destruct (scrollToTarget opts) |];
    (destruct (autoAdvance nx) as [delay |];
     [destruct (Qltb 0 delay) |]); reflexivity.
Qed.

Lemma forallb_commitTrace (p : option TourStep) (nx : TourStep) (i : Z)
  (d : Direction) :
  forallb isProtocolEvent (commitTrace opts dom p nx i d) = true.
Proof.
  unfold commitTrace. destruct (returns (resolveTarget dom nx));
    [apply forallb_commitEvents | reflexivity].
Qed.

(** When the lookup returns, the trace is the protocol; when it throws,
    it is the protocol cut short. *)
Lemma trace_returns (p : option TourStep) (nx : TourStep) (i : Z)
  (d : Direction) :
  returns (resolveTarget dom nx) = true ->
  trace opts dom p nx i d = protocol opts dom p nx i d.
Proof.
  intros R. unfold trace, protocol, commitTrace. now rewrite R.
Qed.

Lemma Forall_optional (P : Event -> Prop) (b : bool) (e : Event) :
  (b = true -> P e) -> Forall P (optional b e).
Proof.
  intros H. destruct b; cbn; [constructor; auto | constructor].
Qed.

Lemma Forall_ofLeaving (P : Event -> Prop) (p : option TourStep)
  (has : TourStep -> bool) (call : TourStep -> Event) :
  (forall st, P (call st)) -> Forall P (ofLeaving p has call).
Proof.
  intros H. destruct p as [q |]; cbn; [| constructor].
  apply Forall_optional. auto.
Qed.

(** [onStepChange] is called for the destination and with the direction
    of the change only. *)
Lemma stepChange_in_trace (p : option TourStep) (nx : TourStep) (i : Z)
  (d : Direction) (st' : TourStep) (d' : Direction) :
  In (CallOnStepChange st' d') (trace opts dom p nx i d) ->
  st' = nx /\ d' = d.
Proof.
  set (P := fun e : Event =>
              match e with
              | CallOnStepChange a b => a = nx /\ b = d
              | _ => True
              end).
  assert (F : Forall P (trace opts dom p nx i d)).
  { unfold trace, commitTrace, commitEvents, resolveEvents,
      autoAdvanceEvents, autoAdvanceTimer.
    repeat (apply Forall_app; split);
      try (apply Forall_ofLeaving; intros; exact I);
      try (apply Forall_optional; intros; cbn; auto).
    destruct (returns (resolveTarget dom nx));
      [| repeat constructor].
    repeat (apply Forall_app; split);
      try (apply Forall_ofLeaving; intros; exact I);
      try (apply Forall_optional; intros; cbn; auto).
    - repeat constructor.
    - constructor; [exact I |].
      destruct (found (resolveTarget dom nx));
        [destruct (scrollToTarget opts) |]; repeat constructor.
    - destruct (autoAdvance nx) as [delay |];
        [destruct (Qltb 0 delay) |]; repeat constructor. }
  intros H. rewrite Forall_forall in F. exact (F _ H).
Qed.

Lemma trace_throws (p : option TourStep) (nx : TourStep) (i : Z)
  (d : Direction) :
  returns (resolveTarget dom nx) = false ->
  trace opts dom p nx i d = interrupted p nx i.
Proof.
  intros R. unfold trace, interrupted, commitTrace. now rewrite R.
Qed.

Lemma filter_protocol (p : option TourStep) (nx : TourStep) (i : Z)
  (d : Direction) :
  filter isProtocolEvent (protocol opts dom p nx i d)
  = protocol opts dom p nx i d.
Proof.
  apply filter_all. unfold protocol. rewrite !forallb_app.
  rewrite forallb_ofLeaving by reflexivity.
  rewrite forallb_optional by reflexivity.
  now rewrite forallb_commitEvents.
Qed.

(** [finishStep] from a state that differs from [s] in its log only. *)
Lemma finishStep_arrived (p : option TourStep) (nx : TourStep) (i : Z)
  (d : Direction) (s t : State) (lg : list Event) :
  stepAt opts i = Some nx ->
  suspended t = [] ->
  status t = status s ->
  targetElement t = targetElement s ->
  targetRect t = targetRect s ->
  timers t = timers s ->
  frames t = frames s ->
  log t ++ commitTrace opts dom p nx i d = lg ->
  finishStep opts dom p nx i d t = arrived opts dom s nx i lg.
Proof.
  intros H Q A B C D E <-. rewrite (finishStep_spec _ _ _ _ _ H).
  unfold arrived. rewrite Q, A, B, C, D, E.
  destruct (returns (resolveTarget dom nx)); reflexivity.
Qed.

Lemma emitIf_arrived (b : bool) (e : Event) (s : State) (nx : TourStep)
  (i : Z) (lg : list Event) :
  emitIf b e (arrived opts dom s nx i lg)
  = arrived opts dom s nx i (lg ++ optional b e).
Proof.
  unfold arrived.
  destruct (returns (resolveTarget dom nx)), b; cbn;
    rewrite ?app_nil_r; reflexivity.
Qed.

(** The log of a state built with the setters. *)
Ltac logs :=
  repeat first
    [ rewrite log_emitIf
    | progress (unfold setSuspended, suspend, emit; cbn [log]) ];
  rewrite <- ?app_assoc; cbn [app]; try reflexivity.

(** [setStep] to a step, from a state with no call suspended, followed
    by one more optional callback of the caller (the [onStart] of
    [start]), and then run until nothing is suspended: the step change
    has come to its end, and what it added to the log is, that callback
    apart, its trace. *)
Lemma settle_setStep_emitIf (b : bool) (e : Event) (i : Z)
  (d : Direction) (nx : TourStep) (s : State) :
  suspended s = [] ->
  stepAt opts i = Some nx ->
  isProtocolEvent e = false ->
  exists added : list Event,
    settle opts dom (emitIf b e (setStep opts dom i d s))
    = arrived opts dom s nx i (log s ++ added)
    /\ filter isProtocolEvent added
       = trace opts dom (currentStep opts s) nx i d
    /\ (b = false -> added = trace opts dom (currentStep opts s) nx i d).
Proof.
  intros Q H E. unfold setStep. rewrite H.
  set (p := currentStep opts s).
  assert (F := filter_optional_other b e E).
  assert (C := forallb_commitTrace p nx i d).
  apply filter_all in C.
  destruct p as [q |] eqn:P; [destruct (onBeforeHide q) eqn:BH |].
  - (* suspended at the first await *)
    exists ([CallOnBeforeHide q] ++ optional b e
            ++ optional (onBeforeShow nx) (CallOnBeforeShow nx)
            ++ commitTrace opts dom (Some q) nx i d).
    split; [| split].
    + rewrite (settle_awaitBeforeHide (Some q) nx i d)
        by (try exact H; destruct b; cbn; rewrite Q; reflexivity).
      apply finishStep_arrived; try exact H;
        try (destruct b, (onBeforeShow nx); reflexivity).
      logs.
    + unfold trace, ofLeaving. rewrite BH.
      rewrite !filter_app, F, C.
      rewrite (filter_all _ (optional (onBeforeShow nx) _))
        by now apply forallb_optional.
      reflexivity.
    + intros ->. unfold trace, ofLeaving. rewrite BH. reflexivity.
  - (* the leaving step has no onBeforeHide *)
    unfold beforeShow. destruct (onBeforeShow nx) eqn:BS.
    * exists ([CallOnBeforeShow nx] ++ optional b e
              ++ commitTrace opts dom (Some q) nx i d).
      split; [| split].
      -- rewrite (settle_awaitBeforeShow (Some q) nx i d)
           by (try exact H; destruct b; cbn; rewrite Q; reflexivity).
         apply finishStep_arrived; try exact H;
           try (destruct b; reflexivity).
         logs.
      -- unfold trace, ofLeaving. rewrite BH, BS.
         rewrite !filter_app, F, C. reflexivity.
      -- intros ->. unfold trace, ofLeaving. rewrite BH, BS.
         reflexivity.
    * exists (commitTrace opts dom (Some q) nx i d ++ optional b e).
      split; [| split].
      -- rewrite (finishStep_arrived _ _ _ _ s s _ H Q eq_refl eq_refl
                    eq_refl eq_refl eq_refl eq_refl).
         rewrite emitIf_arrived, <- app_assoc.
         apply settle_quiescent, arrived_kept.
      -- unfold trace, ofLeaving. rewrite BH, BS.
         rewrite !filter_app, F, C. cbn. now rewrite app_nil_r.
      -- intros ->. unfold trace, ofLeaving. rewrite BH, BS.
         cbn. now rewrite app_nil_r.
  - (* no step is left *)
    unfold beforeShow. destruct (onBeforeShow nx) eqn:BS.
    * exists ([CallOnBeforeShow nx] ++ optional b e
              ++ commitTrace opts dom None nx i d).
      split; [| split].
      -- rewrite (settle_awaitBeforeShow None nx i d)
           by (try exact H; destruct b; cbn; rewrite Q; reflexivity).
         apply finishStep_arrived; try exact H;
           try (destruct b; reflexivity).
         logs.
      -- unfold trace, ofLeaving. rewrite BS.
         rewrite !filter_app, F, C. reflexivity.
      -- intros ->. unfold trace, ofLeaving. rewrite BS.
         reflexivity.
    * exists (commitTrace opts dom None nx i d ++ optional b e).
      split; [| split].
      -- rewrite (finishStep_arrived _ _ _ _ s s _ H Q eq_refl eq_refl
                    eq_refl eq_refl eq_refl eq_refl).
         rewrite emitIf_arrived, <- app_assoc.
         apply settle_quiescent, arrived_kept.
      -- unfold trace, ofLeaving. rewrite BS.
         rewrite !filter_app, F, C. cbn. now rewrite app_nil_r.
      -- intros ->. unfold trace, ofLeaving. rewrite BS.
         cbn. now rewrite app_nil_r.
Qed.

(** [setStep] alone, run until nothing is suspended. *)
Lemma settle_setStep (i : Z) (d : Direction) (nx : TourStep)
  (s : State) :
  suspended s = [] ->
  stepAt opts i = Some nx ->
  settle opts dom (setStep opts dom i d s)
  = arrived opts dom s nx i
      (log s ++ trace opts dom (currentStep opts s) nx i d).
Proof.
  intros Q H.
  destruct (settle_setStep_emitIf false CallOnStart i d nx s Q H
              eq_refl) as (added & E & _ & A).
  cbn [emitIf] in E. rewrite E. now rewrite (A eq_refl).
Qed.

Lemma setStep_undefined (i : Z) (d : Direction) (s : State) :
  stepAt opts i = None -> setStep opts dom i d s = s.
Proof.
  intros H. unfold setStep. now rewrite H.
Qed.

(** *** Every reachable state is well formed *)

Lemma Forall_removeNth {A : Type} (P : A -> Prop) (n : nat)
  (l : list A) :
  Forall P l -> Forall P (removeNth n l).
Proof.
  intros H. revert n.
  induction H as [| a l Ha Hl IH]; intros [| n]; cbn;
    try constructor; auto.
Qed.

Lemma wellFormed_fields (s t : State) :
  currentStepIndex t = currentStepIndex s ->
  suspended t = suspended s ->
  wellFormed opts s -> wellFormed opts t.
Proof.
  unfold wellFormed. intros -> ->. auto.
Qed.

Lemma wellFormed_reset (s t : State) :
  currentStepIndex t = (-1)%Z ->
  suspended t = suspended s ->
  wellFormed opts s -> wellFormed opts t.
Proof.
  unfold wellFormed. intros -> ->. intuition.
Qed.

Lemma wellFormed_emitIf (b : bool) (e : Event) (s : State) :
  wellFormed opts s -> wellFormed opts (emitIf b e s).
Proof.
  apply wellFormed_fields; destruct b; reflexivity.
Qed.

Lemma wellFormed_updateTarget (s : State) :
  wellFormed opts s ->
  wellFormed opts (stateOf (updateTarget opts dom s)).
Proof.
  apply wellFormed_fields; apply updateTarget_keeps.
Qed.

Lemma wellFormed_finishStep (p : option TourStep) (nx : TourStep)
  (i : Z) (d : Direction) (s : State) :
  stepAt opts i = Some nx ->
  wellFormed opts s -> wellFormed opts (finishStep opts dom p nx i d s).
Proof.
  intros H [_ W]. rewrite (finishStep_spec _ _ _ _ _ H). unfold arrived.
  destruct (returns (resolveTarget dom nx));
    (split; cbn; [right; now apply stepAt_range in H | exact W]).
Qed.

Lemma wellFormed_suspend (k : Suspended) (e : Event) (s : State) :
  validSuspended opts k ->
  wellFormed opts s -> wellFormed opts (suspend k (emit e s)).
Proof.
  intros V [I W]. split; cbn; [exact I |].
  apply Forall_app. split; [exact W | now constructor].
Qed.

Lemma wellFormed_beforeShow (p : option TourStep) (nx : TourStep)
  (i : Z) (d : Direction) (s : State) :
  stepAt opts i = Some nx ->
  wellFormed opts s -> wellFormed opts (beforeShow opts dom p nx i d s).
Proof.
  intros H W. unfold beforeShow. destruct (onBeforeShow nx).
  - now apply wellFormed_suspend.
  - now apply wellFormed_finishStep.
Qed.

Lemma wellFormed_setStep (i : Z) (d : Direction) (s : State) :
  wellFormed opts s -> wellFormed opts (setStep opts dom i d s).
Proof.
  intros W. unfold setStep.
  destruct (stepAt opts i) as [nx |] eqn:H; [| exact W].
  destruct (currentStep opts s) as [p |];
    [destruct (onBeforeHide p) |].
  - now apply wellFormed_suspend.
  - now apply wellFormed_beforeShow.
  - now apply wellFormed_beforeShow.
Qed.

Lemma wellFormed_continue (n : nat) (s : State) :
  wellFormed opts s -> wellFormed opts (continue opts dom n s).
Proof.
  intros W. unfold continue.
  destruct (nth_error (suspended s) n) as [k |] eqn:E; [| exact W].
  assert (V : validSuspended opts k).
  { destruct W as [_ W]. rewrite Forall_forall in W. apply W.
    eapply nth_error_In; eassumption. }
  assert (W' : wellFormed opts
                 (setSuspended (removeNth n (suspended s)) s)).
  { destruct W as [I W]. split; cbn; [exact I |].
    now apply Forall_removeNth. }
  destruct k; cbn in V.
  - now apply wellFormed_beforeShow.
  - now apply wellFormed_finishStep.
Qed.

Lemma wellFormed_complete (s : State) :
  wellFormed opts s -> wellFormed opts (complete opts s).
Proof.
  intros W. unfold complete. apply wellFormed_emitIf.
  revert W. now apply wellFormed_reset.
Qed.

Lemma wellFormed_skip (s : State) :
  wellFormed opts s -> wellFormed opts (skip opts s).
Proof.
  intros W. unfold skip. apply wellFormed_emitIf.
  revert W. now apply wellFormed_reset.
Qed.

Lemma wellFormed_next (s : State) :
  wellFormed opts s -> wellFormed opts (next opts dom s).
Proof.
  intros W. unfold next.
  destruct (negb (status_eqb (status s) active)); [exact W |].
  destruct (isLastStep opts s).
  - now apply wellFormed_complete.
  - now apply wellFormed_setStep.
Qed.

Lemma wellFormed_previous (s : State) :
  wellFormed opts s -> wellFormed opts (previous opts dom s).
Proof.
  intros W. unfold previous.
  destruct (negb (status_eqb (status s) active) || isFirstStep s);
    [exact W | now apply wellFormed_setStep].
Qed.

Lemma wellFormed_goTo (r : Z + string) (s : State) :
  wellFormed opts s -> wellFormed opts (goTo opts dom r s).
Proof.
  intros W. unfold goTo.
  destruct (negb (status_eqb (status s) active)); [exact W |].
  destruct r as [i | stepId].
  - destruct ((i >=? 0)%Z && (i <? totalSteps opts)%Z);
      [now apply wellFormed_setStep | exact W].
  - destruct (findIndex _ _ =? -1)%Z; [exact W |].
    destruct ((_ >=? 0)%Z && (_ <? totalSteps opts)%Z);
      [now apply wellFormed_setStep | exact W].
Qed.

Lemma wellFormed_start (i : Z) (s : State) :
  wellFormed opts s -> wellFormed opts (start opts dom i s).
Proof.
  intros W. unfold start.
  destruct (length (steps opts) =? 0)%nat; [exact W |].
  apply wellFormed_emitIf, wellFormed_setStep.
  revert W. now apply wellFormed_fields.
Qed.

Lemma wellFormed_fireTimer (n : nat) (s : State) :
  wellFormed opts s -> wellFormed opts (fireTimer opts dom n s).
Proof.
  intros W. unfold fireTimer.
  destruct (nth_error (timers s) n) as [[i delay] |]; [| exact W].
  match goal with
  | |- context [if ?c then _ else _] => destruct c
  end.
  - apply wellFormed_next. revert W. now apply wellFormed_fields.
  - revert W. now apply wellFormed_fields.
Qed.

Lemma wellFormed_runFrame (n : nat) (s : State) :
  wellFormed opts s -> wellFormed opts (runFrame dom n s).
Proof.
  intros W. unfold runFrame.
  destruct (nth_error (frames s) n); [| exact W].
  revert W. now apply wellFormed_fields.
Qed.

End Facts.

Lemma wellFormed_step (opts : TourOptions) (s : State) (o : Dom * Op) :
  wellFormed opts s -> wellFormed opts (step opts s o).
Proof.
  intros W. destruct o as [dom op]. destruct op; cbn [step].
  - now apply wellFormed_start.
  - revert W. now apply wellFormed_reset.
  - now apply wellFormed_next.
  - now apply wellFormed_previous.
  - now apply wellFormed_goTo.
  - now apply wellFormed_skip.
  - unfold pause. destruct (status_eqb (status s) active); [| exact W].
    revert W. now apply wellFormed_fields.
  - unfold resume. destruct (status_eqb (status s) paused); [| exact W].
    revert W. now apply wellFormed_fields.
  - now apply wellFormed_complete.
  - now apply wellFormed_continue.
  - now apply wellFormed_fireTimer.
  - now apply wellFormed_runFrame.
  - unfold handleKeydown.
    destruct (negb (keyboardNavigation opts)
              || negb (status_eqb (status s) active)); [exact W |].
    destruct key; try exact W.
    + now apply wellFormed_next.
    + now apply wellFormed_next.
    + now apply wellFormed_previous.
    + destruct (closeOnEscape opts); [now apply wellFormed_skip | exact W].
  - unfold handleClickOutside.
    destruct (negb (closeOnClickOutside opts)
              || negb (status_eqb (status s) active)); [exact W |].
    destruct (targetElement s); [| exact W].
    destruct (negb inside); [now apply wellFormed_skip | exact W].
  - unfold handleResize. destruct (status_eqb (status s) active);
      [now apply wellFormed_updateTarget | exact W].
Qed.

Lemma wellFormed_fold (opts : TourOptions) (ops : list (Dom * Op))
  (s : State) :
  wellFormed opts s -> wellFormed opts (fold_left (step opts) ops s).
Proof.
  revert s. induction ops as [| o ops IH]; intros s W; cbn; [exact W |].
  apply IH. now apply wellFormed_step.
Qed.

(** Every state that a tour reaches is well formed. *)
Lemma wellFormed_run (opts : TourOptions) (ops : list (Dom * Op)) :
  wellFormed opts (run opts ops).
Proof.
  apply wellFormed_fold. split; cbn; [now left | constructor].
Qed.

End TourFacts.

Module TourIds.
Import Tour TourSpec TourFacts.

Lemma findIndexFrom_none (pred : TourStep -> bool) (l : list TourStep)
  (k : Z) :
  (forall st, In st l -> pred st = false) ->
  findIndexFrom pred l k = (-1)%Z.
Proof.
  revert k. induction l as [| h t IH]; intros k H; cbn; [reflexivity |].
  rewrite (H h) by now left.
  apply IH. intros st I. apply H. now right.
Qed.

Lemma findIndexFrom_first (pred : TourStep -> bool) (l : list TourStep)
  (k : Z) (n : nat) (st : TourStep) :
  nth_error l n = Some st ->
  pred st = true ->
  (forall m st', (m < n)%nat -> nth_error l m = Some st' ->
                 pred st' = false) ->
  findIndexFrom pred l k = (k + Z.of_nat n)%Z.
Proof.
  revert k n. induction l as [| h t IH]; intros k n E P F.
  - destruct n; discriminate.
  - destruct n as [| n]; cbn in E |- *.
    + injection E as ->. rewrite P. lia.
    + rewrite (F 0%nat h) by (cbn; auto; lia).
      rewrite (IH (k + 1)%Z n E P); [lia |].
      intros m st' L N. apply (F (S m) st'); [lia | exact N].
Qed.

(** [findIndex] returns the position of the first step with the id. *)
Lemma findIndex_first (opts : TourOptions) (stepId : string) (i : Z)
  (st : TourStep) :
  firstWithId opts stepId i st ->
  findIndex (fun x => String.eqb (id x) stepId) (steps opts) = i.
Proof.
  intros (E & I & F).
  assert (R := stepAt_range opts i st E).
  unfold stepAt in E. replace (i <? 0)%Z with false in E by (symmetry; lia).
  unfold findIndex.
  rewrite (findIndexFrom_first _ _ 0%Z (Z.to_nat i) st E).
  - lia.
  - now apply String.eqb_eq.
  - intros m st' L N. apply String.eqb_neq.
    apply (F (Z.of_nat m) st'); [lia |].
    unfold stepAt. replace (Z.of_nat m <? 0)%Z with false by (symmetry; lia).
    now rewrite Nat2Z.id.
Qed.

(** With unique ids, a step with the id is the first with it. *)
Lemma firstWithId_unique (opts : TourOptions) (stepId : string) (i : Z)
  (st : TourStep) :
  NoDup (map id (steps opts)) ->
  stepAt opts i = Some st -> id st = stepId ->
  firstWithId opts stepId i st.
Proof.
  intros U E I. split; [exact E | split; [exact I |]].
  intros j st' R E' I'.
  assert (Ri := stepAt_range opts i st E).
  unfold stepAt in E, E'.
  replace (i <? 0)%Z with false in E by (symmetry; lia).
  replace (j <? 0)%Z with false in E' by (symmetry; lia).
  assert (Z.to_nat j = Z.to_nat i); [| lia].
  rewrite NoDup_nth_error in U. apply U.
  - rewrite length_map. apply nth_error_Some. congruence.
  - rewrite !nth_error_map, E, E'. cbn. congruence.
Qed.


End TourIds.

(** What a navigation control has done, case by case. *)
Module TourSteps.
Import Tour TourSpec TourFacts TourIds.
Local Open Scope list_scope.

Section Steps.

Variable opts : TourOptions.
Variable dom : Dom.






End Steps.

End TourSteps.

(* ===================================================================== *)
(** ** The sequencer: start, next, goTo and the step-change protocol *)
(* ===================================================================== *)

Section TourClaims.
Import Tour TourSpec TourFacts TourIds TourSteps.
Local Open Scope list_scope.

(** C7: [start()] on a tour without steps changes nothing, so an idle tour
    stays idle; on a tour with steps, from a state in which no step change
    is suspended, [start()] with the default index 0 ends, once the awaited
    callbacks have settled, with status [active], index 0, [isFirstStep]
    true, and [isLastStep] true exactly when there is one step. *)
Theorem C7_start_default :
  forall (opts : TourOptions) (dom : Dom) (s : State),
    (steps opts = [] ->
     start opts dom 0 s = s
     /\ (status s = idle -> status (start opts dom 0 s) = idle))
    /\ (steps opts <> [] -> suspended s = [] ->
        let s' := settle opts dom (start opts dom 0 s) in
        status s' = active
        /\ currentStepIndex s' = 0%Z
        /\ isFirstStep s' = true
        /\ isLastStep opts s' = (totalSteps opts =? 1)%Z).
Proof.
  intros opts dom s. split.
  - intros E. unfold start. rewrite E. cbn. auto.
  - intros N Q s'.
    assert (exists nx, stepAt opts 0 = Some nx) as [nx H].
    { apply stepAt_in_range. unfold totalSteps.
      destruct (steps opts); [congruence | cbn; lia]. }
    assert (L : (length (steps opts) =? 0)%nat = false).
    { destruct (steps opts); [congruence | reflexivity]. }
    destruct (settle_setStep_emitIf opts dom (onStart opts) CallOnStart 0
                dirNext nx (setStatus active s) Q H eq_refl)
      as (added & E & _).
    unfold s', start. rewrite L. rewrite E.
    destruct (arrived_kept opts dom (setStatus active s) nx 0
                (log (setStatus active s) ++ added)) as (A1 & A2 & _).
    unfold isFirstStep, isLastStep. rewrite A1, A2.
    repeat split.
    destruct (Z.eqb_spec 0 (totalSteps opts - 1));
      destruct (Z.eqb_spec (totalSteps opts) 1); try reflexivity; lia.
Qed.

Lemma C7_start_default_witness :
  (start Demo.empty Demo.document 0 init = init
   /\ (status init = idle ->
       status (start Demo.empty Demo.document 0 init) = idle))
  /\ (let s' := settle Demo.options Demo.document
                  (start Demo.options Demo.document 0 init) in
      status s' = active
      /\ currentStepIndex s' = 0%Z
      /\ isFirstStep s' = true
      /\ isLastStep Demo.options s' = (totalSteps Demo.options =? 1)%Z).
Proof.
  split.
  - apply (C7_start_default Demo.empty Demo.document init). reflexivity.
  - apply (C7_start_default Demo.options Demo.document init).
    + discriminate.
    + reflexivity.
Defined.

(** C10: on a tour with steps, [start(stepIndex)] with an index that is
    negative or not below the number of steps sets the status to [active]
    and calls [onStart] (when the tour has one), and nothing else changes:
    the index stays what it was, so from a state with index -1 it stays -1
    and [currentStep] stays null, the tour being active with no current
    step. *)
Theorem C10_start_out_of_range :
  forall (opts : TourOptions) (dom : Dom) (s : State) (stepIndex : Z),
    steps opts <> [] ->
    (stepIndex < 0 \/ totalSteps opts <= stepIndex)%Z ->
    let s' := start opts dom stepIndex s in
    s' = emitIf (onStart opts) CallOnStart (setStatus active s)
    /\ status s' = active
    /\ log s' = log s ++ optional (onStart opts) CallOnStart
    /\ currentStepIndex s' = currentStepIndex s
    /\ (currentStepIndex s = (-1)%Z ->
        currentStepIndex s' = (-1)%Z /\ currentStep opts s' = None).
Proof.
  intros opts dom s i N R s'.
  assert (L : (length (steps opts) =? 0)%nat = false).
  { destruct (steps opts); [congruence | reflexivity]. }
  assert (E : s' = emitIf (onStart opts) CallOnStart (setStatus active s)).
  { unfold s', start. rewrite L.
    now rewrite (setStep_undefined opts dom i dirNext _
                   (stepAt_out_of_range opts i R)). }
  split; [exact E |]. rewrite E.
  split; [destruct (onStart opts); reflexivity |].
  split; [now rewrite log_emitIf |].
  split; [destruct (onStart opts); reflexivity |].
  intros I. split; [destruct (onStart opts); exact I |].
  apply currentStep_outside.
  replace (currentStepIndex (emitIf (onStart opts) CallOnStart
                               (setStatus active s)))
    with (currentStepIndex s) by (destruct (onStart opts); reflexivity).
  lia.
Qed.

Lemma C10_start_out_of_range_witness :
  let s' := start Demo.options Demo.document 2 init in
  s' = emitIf (onStart Demo.options) CallOnStart (setStatus active init)
  /\ status s' = active
  /\ log s' = log init ++ optional (onStart Demo.options) CallOnStart
  /\ currentStepIndex s' = currentStepIndex init
  /\ (currentStepIndex init = (-1)%Z ->
      currentStepIndex s' = (-1)%Z /\ currentStep Demo.options s' = None).
Proof.
  apply (C10_start_out_of_range Demo.options Demo.document init 2).
  - discriminate.
  - right. vm_compute. discriminate.
Defined.

(** C5: in every reachable state with status [active], [next()] on the last
    step sets the status to [completed], the index to -1, clears
    [targetElement] and [targetRect] and calls [onComplete] (when the tour
    has one); [next()] on another step, when no step change is suspended,
    ends with the index one higher, the status still [active]. *)
Theorem C5_next :
  forall (opts : TourOptions) (dom : Dom) (ops : list (Dom * Op)),
    let s := run opts ops in
    status s = active ->
    (isLastStep opts s = true ->
     let s' := next opts dom s in
     status s' = completed
     /\ currentStepIndex s' = (-1)%Z
     /\ targetElement s' = None
     /\ targetRect s' = None
     /\ log s' = log s ++ optional (onComplete opts) CallOnComplete)
    /\ (isLastStep opts s = false -> suspended s = [] ->
        let s' := settle opts dom (next opts dom s) in
        currentStepIndex s' = (currentStepIndex s + 1)%Z
        /\ status s' = active).
Proof.
  intros opts dom ops s A.
  assert (W : wellFormed opts s) by apply wellFormed_run.
  generalize dependent s. intros s A W.
  split.
  - intros L s'. unfold s', next. rewrite A, L. cbn [status_eqb negb].
    unfold complete. rewrite log_emitIf.
    destruct (onComplete opts); cbn; auto.
  - intros L Q s'. unfold s', next. rewrite A, L. cbn [status_eqb negb].
    assert (exists nx, stepAt opts (currentStepIndex s + 1) = Some nx)
      as [nx H].
    { apply stepAt_in_range. unfold isLastStep in L.
      apply Z.eqb_neq in L. destruct W as [[I | I] _].
      - assert (0 <= totalSteps opts)%Z by (unfold totalSteps; lia). lia.
      - lia. }
    rewrite (settle_setStep opts dom _ dirNext nx s Q H).
    destruct (arrived_kept opts dom s nx (currentStepIndex s + 1)
                (log s ++ trace opts dom (currentStep opts s) nx
                            (currentStepIndex s + 1) dirNext))
      as (A1 & A2 & _).
    rewrite A1, A2. auto.
Qed.

Lemma C5_next_witness :
  (let s := run Demo.options
              [(Demo.document, OpStart 0); (Demo.document, OpContinue 0);
               (Demo.document, OpNext); (Demo.document, OpContinue 0)] in
   let s' := next Demo.options Demo.document s in
   status s' = completed
   /\ currentStepIndex s' = (-1)%Z
   /\ targetElement s' = None
   /\ targetRect s' = None
   /\ log s' = log s ++ optional (onComplete Demo.options) CallOnComplete)
  /\ (let s := run Demo.options
                 [(Demo.document, OpStart 0); (Demo.document, OpContinue 0)] in
      let s' := settle Demo.options Demo.document
                  (next Demo.options Demo.document s) in
      currentStepIndex s' = (currentStepIndex s + 1)%Z
      /\ status s' = active).
Proof.
  split.
  - apply (C5_next Demo.options Demo.document
             [(Demo.document, OpStart 0); (Demo.document, OpContinue 0);
              (Demo.document, OpNext); (Demo.document, OpContinue 0)]);
      reflexivity.
  - apply (C5_next Demo.options Demo.document
             [(Demo.document, OpStart 0); (Demo.document, OpContinue 0)]);
      reflexivity.
Defined.

(** C6: with status [active], [goTo(id)] with an id that no step has leaves
    the whole state as it is; with the id of a step (the first with that id;
    ids are unique), when no step change is suspended, it ends with the
    index at that step's position and the status still [active], and every
    call of [onStepChange] that it made was for that step with the
    direction ['next'] if the position is strictly greater than the index
    before, and ['previous'] otherwise: when the lookup of the step's
    target returns, what it added to the log is exactly the protocol with
    that direction; when the lookup throws, it is the protocol cut short
    after the call of (4), in which [onStepChange] is not called. *)
Theorem C6_goTo_id :
  forall (opts : TourOptions) (dom : Dom) (s : State) (stepId : string),
    status s = active ->
    ((forall st, In st (steps opts) -> id st <> stepId) ->
     goTo opts dom (inr stepId) s = s)
    /\ (forall (i : Z) (st : TourStep),
          firstWithId opts stepId i st -> suspended s = [] ->
          let direction :=
            if (i >? currentStepIndex s)%Z then dirNext else dirPrevious in
          let s' := settle opts dom (goTo opts dom (inr stepId) s) in
          currentStepIndex s' = i
          /\ status s' = active
          /\ (exists added : list Event,
                log s' = log s ++ added
                /\ (forall (st' : TourStep) (d' : Direction),
                      In (CallOnStepChange st' d') added ->
                      st' = st /\ d' = direction)
                /\ (returns (resolveTarget dom st) = true ->
                    added
                    = protocol opts dom (currentStep opts s) st i direction)
                /\ (returns (resolveTarget dom st) = false ->
                    added = interrupted (currentStep opts s) st i))
          /\ (direction = dirNext <-> (currentStepIndex s < i)%Z)).
Proof.
  intros opts dom s stepId A. split.
  - intros N. unfold goTo. rewrite A. cbn [status_eqb negb].
    unfold findIndex. rewrite findIndexFrom_none; [reflexivity |].
    intros st I. apply String.eqb_neq. now apply N.
  - intros i st F Q direction s'.
    assert (H : stepAt opts i = Some st) by apply F.
    assert (R := stepAt_range opts i st H).
    unfold s', goTo. rewrite A. cbn [status_eqb negb].
    rewrite (findIndex_first opts stepId i st F).
    replace (i =? -1)%Z with false by (symmetry; lia).
    replace ((i >=? 0)%Z && (i <? totalSteps opts)%Z) with true
      by (symmetry; apply andb_true_iff; lia).
    fold direction.
    rewrite (settle_setStep opts dom i direction st s Q H).
    destruct (arrived_kept opts dom s st i
                (log s ++ trace opts dom (currentStep opts s) st i
                            direction)) as (A1 & A2 & A3 & _).
    rewrite A1, A2, A3.
    split; [reflexivity |]. split; [exact A |]. split.
    + exists (trace opts dom (currentStep opts s) st i direction).
      split; [reflexivity |]. split; [| split].
      * intros st' d'. apply stepChange_in_trace.
      * apply trace_returns.
      * apply trace_throws.
    + unfold direction. destruct (Z.gtb_spec i (currentStepIndex s)).
      * split; [lia | reflexivity].
      * split; [discriminate | lia].
Qed.

Lemma C6_goTo_id_witness :
  let s := run Demo.options
             [(Demo.document, OpStart 0); (Demo.document, OpContinue 0)] in
  goTo Demo.options Demo.document (inr "nowhere") s = s
  /\ (let direction :=
        if (1 >? currentStepIndex s)%Z then dirNext else dirPrevious in
      let s' := settle Demo.options Demo.document
                  (goTo Demo.options Demo.document (inr "feature") s) in
      currentStepIndex s' = 1%Z
      /\ status s' = active
      /\ (exists added : list Event,
            log s' = log s ++ added
            /\ (forall (st' : TourStep) (d' : Direction),
                  In (CallOnStepChange st' d') added ->
                  st' = Demo.feature /\ d' = direction)
            /\ (returns (resolveTarget Demo.document Demo.feature) = true ->
                added
                = protocol Demo.options Demo.document
                    (currentStep Demo.options s) Demo.feature 1 direction)
            /\ (returns (resolveTarget Demo.document Demo.feature) = false ->
                added
                = interrupted (currentStep Demo.options s) Demo.feature 1))
      /\ (direction = dirNext <-> (currentStepIndex s < 1)%Z)).
Proof.
  intros s. split.
  - apply (C6_goTo_id Demo.options Demo.document s "nowhere");
      [reflexivity |].
    intros st [<- | [<- | []]]; discriminate.
  - apply (C6_goTo_id Demo.options Demo.document s "feature");
      [reflexivity | | reflexivity].
    apply firstWithId_unique; [| reflexivity | reflexivity].
    repeat constructor; cbn; intuition discriminate.
Defined.

(** The log of the two-step tour after [start()] and [next()], each with its
    awaited callbacks settled. *)
Example demo_log :
  let s1 := settle Demo.options Demo.document
              (start Demo.options Demo.document 0 init) in
  let s2 := settle Demo.options Demo.document
              (next Demo.options Demo.document s1) in
  log s1
  = [CallOnBeforeShow Demo.welcome; CallOnStart; CommitIndex 0;
     ResolveTarget Demo.welcome; ScrollIntoView 1%nat;
     RequestAnimationFrame 1%nat; CallOnAfterShow Demo.welcome;
     CallOnStepChange Demo.welcome dirNext; SetTimeout 0 1500]
  /\ log s2
     = log s1
       ++ [CallOnBeforeHide Demo.welcome; CommitIndex 1;
           ResolveTarget Demo.feature; CallOnAfterHide Demo.welcome;
           CallOnAfterShow Demo.feature;
           CallOnStepChange Demo.feature dirNext].
Proof. split; reflexivity. Qed.




(** *** The target fields *)

Section TargetFields.

Variable opts : TourOptions.
Variable dom : Dom.
Variable quiet : bool.
Hypothesis quietNoScroll : quiet = true -> scrollToTarget opts = false.

Lemma settledTarget_fields (s t : State) :
  frames t = frames s -> targetElement t = targetElement s ->
  targetRect t = targetRect s ->
  settledTarget quiet s -> settledTarget quiet t.
Proof.
  unfold settledTarget. intros -> -> ->. auto.
Qed.

Lemma settledTarget_cleared (s t : State) :
  frames t = frames s -> targetRect t = None ->
  settledTarget quiet s -> settledTarget quiet t.
Proof.
  unfold settledTarget. intros -> -> [F _]. split; [exact F | congruence].
Qed.

Lemma settledTarget_emitIf (b : bool) (e : Event) (s : State) :
  settledTarget quiet s -> settledTarget quiet (emitIf b e s).
Proof.
  apply settledTarget_fields; destruct b; reflexivity.
Qed.

Lemma settledTarget_resolved (st : TourStep) (s t : State) :
  frames t = frames s ++ scrollFrames opts (found (resolveTarget dom st)) ->
  targetElement t = found (resolveTarget dom st) ->
  targetRect t
  = option_map (getBoundingClientRect dom) (found (resolveTarget dom st)) ->
  settledTarget quiet s -> settledTarget quiet t.
Proof.
  unfold settledTarget, scrollFrames. intros F E R [Fs _].
  rewrite F, E, R. split.
  - intros Q. rewrite (quietNoScroll Q), (Fs Q).
    destruct (found (resolveTarget dom st)); reflexivity.
  - destruct (found (resolveTarget dom st)); cbn; congruence.
Qed.

Lemma settledTarget_updateTarget (s : State) :
  settledTarget quiet s ->
  settledTarget quiet (stateOf (updateTarget opts dom s)).
Proof.
  destruct (currentStep opts s) as [st |] eqn:E.
  - rewrite (updateTarget_at opts dom st s E).
    destruct (returns (resolveTarget dom st)); cbn [stateOf].
    + now apply (settledTarget_resolved st).
    + now apply settledTarget_fields.
  - rewrite (updateTarget_none opts dom s E).
    now apply settledTarget_cleared.
Qed.

Lemma settledTarget_finishStep (p : option TourStep) (nx : TourStep)
  (i : Z) (d : Direction) (s : State) :
  stepAt opts i = Some nx ->
  settledTarget quiet s ->
  settledTarget quiet (finishStep opts dom p nx i d s).
Proof.
  intros H. rewrite (finishStep_spec opts dom _ _ _ _ _ H).
  unfold arrived. destruct (returns (resolveTarget dom nx)).
  - now apply (settledTarget_resolved nx).
  - now apply settledTarget_fields.
Qed.

Lemma settledTarget_beforeShow (p : option TourStep) (nx : TourStep)
  (i : Z) (d : Direction) (s : State) :
  stepAt opts i = Some nx ->
  settledTarget quiet s ->
  settledTarget quiet (beforeShow opts dom p nx i d s).
Proof.
  intros H W. unfold beforeShow. destruct (onBeforeShow nx).
  - revert W. now apply settledTarget_fields.
  - now apply settledTarget_finishStep.
Qed.

Lemma settledTarget_setStep (i : Z) (d : Direction) (s : State) :
  settledTarget quiet s -> settledTarget quiet (setStep opts dom i d s).
Proof.
  intros W. unfold setStep.
  destruct (stepAt opts i) as [nx |] eqn:H; [| exact W].
  destruct (currentStep opts s) as [p |]; [destruct (onBeforeHide p) |].
  - revert W. now apply settledTarget_fields.
  - now apply settledTarget_beforeShow.
  - now apply settledTarget_beforeShow.
Qed.

Lemma settledTarget_complete (s : State) :
  settledTarget quiet s -> settledTarget quiet (complete opts s).
Proof.
  intros W. unfold complete. apply settledTarget_emitIf.
  revert W. now apply settledTarget_cleared.
Qed.

Lemma settledTarget_skip (s : State) :
  settledTarget quiet s -> settledTarget quiet (skip opts s).
Proof.
  intros W. unfold skip. apply settledTarget_emitIf.
  revert W. now apply settledTarget_cleared.
Qed.

Lemma settledTarget_next (s : State) :
  settledTarget quiet s -> settledTarget quiet (next opts dom s).
Proof.
  intros W. unfold next.
  destruct (negb (status_eqb (status s) active)); [exact W |].
  destruct (isLastStep opts s).
  - now apply settledTarget_complete.
  - now apply settledTarget_setStep.
Qed.

Lemma settledTarget_previous (s : State) :
  settledTarget quiet s -> settledTarget quiet (previous opts dom s).
Proof.
  intros W. unfold previous.
  destruct (negb (status_eqb (status s) active) || isFirstStep s);
    [exact W | now apply settledTarget_setStep].
Qed.

Lemma settledTarget_goTo (r : Z + string) (s : State) :
  settledTarget quiet s -> settledTarget quiet (goTo opts dom r s).
Proof.
  intros W. unfold goTo.
  destruct (negb (status_eqb (status s) active)); [exact W |].
  destruct r as [i | stepId].
  - destruct ((i >=? 0)%Z && (i <? totalSteps opts)%Z);
      [now apply settledTarget_setStep | exact W].
  - destruct (findIndex _ _ =? -1)%Z; [exact W |].
    destruct ((_ >=? 0)%Z && (_ <? totalSteps opts)%Z);
      [now apply settledTarget_setStep | exact W].
Qed.

Lemma settledTarget_continue (n : nat) (s : State) :
  wellFormed opts s ->
  settledTarget quiet s -> settledTarget quiet (continue opts dom n s).
Proof.
  intros [_ V] W. unfold continue.
  destruct (nth_error (suspended s) n) as [k |] eqn:E; [| exact W].
  assert (Vk : validSuspended opts k).
  { rewrite Forall_forall in V. apply V.
    eapply nth_error_In; eassumption. }
  assert (W' : settledTarget quiet
                 (setSuspended (removeNth n (suspended s)) s))
    by (revert W; now apply settledTarget_fields).
  destruct k; cbn in Vk.
  - now apply settledTarget_beforeShow.
  - now apply settledTarget_finishStep.
Qed.

(** Every operation keeps rectangle and element together, but for the
    animation-frame callback; and that one runs only if a frame is
    pending. *)
Lemma settledTarget_step (s : State) (op : Op) :
  quiet = true \/ isRunFrame op = false ->
  wellFormed opts s ->
  settledTarget quiet s -> settledTarget quiet (step opts s (dom, op)).
Proof.
  intros Q V W. destruct op; cbn [step].
  - unfold start. destruct (length (steps opts) =? 0)%nat; [exact W |].
    apply settledTarget_emitIf, settledTarget_setStep.
    revert W. now apply settledTarget_fields.
  - revert W. now apply settledTarget_cleared.
  - now apply settledTarget_next.
  - now apply settledTarget_previous.
  - now apply settledTarget_goTo.
  - now apply settledTarget_skip.
  - unfold pause. destruct (status_eqb (status s) active); [| exact W].
    revert W. now apply settledTarget_fields.
  - unfold resume. destruct (status_eqb (status s) paused); [| exact W].
    revert W. now apply settledTarget_fields.
  - now apply settledTarget_complete.
  - now apply settledTarget_continue.
  - unfold fireTimer.
    destruct (nth_error (timers s) n) as [[i delay] |]; [| exact W].
    match goal with
    | |- context [if ?c then _ else _] => destruct c
    end.
    + apply settledTarget_next. revert W. now apply settledTarget_fields.
    + revert W. now apply settledTarget_fields.
  - destruct Q as [Q | Q]; [| discriminate Q].
    unfold runFrame. rewrite (proj1 W Q). destruct n; exact W.
  - unfold handleKeydown.
    destruct (negb (keyboardNavigation opts)
              || negb (status_eqb (status s) active)); [exact W |].
    destruct key; try exact W.
    + now apply settledTarget_next.
    + now apply settledTarget_next.
    + now apply settledTarget_previous.
    + destruct (closeOnEscape opts); [now apply settledTarget_skip | exact W].
  - unfold handleClickOutside.
    destruct (negb (closeOnClickOutside opts)
              || negb (status_eqb (status s) active)); [exact W |].
    destruct (targetElement s) eqn:T; [| exact W].
    destruct (negb inside); [now apply settledTarget_skip | exact W].
  - unfold handleResize. destruct (status_eqb (status s) active);
      [now apply settledTarget_updateTarget | exact W].
Qed.

End TargetFields.

Lemma settledTarget_run (opts : TourOptions) (quiet : bool)
  (ops : list (Dom * Op)) :
  (quiet = true -> scrollToTarget opts = false) ->
  (quiet = true \/ Forall (fun o => isRunFrame (snd o) = false) ops) ->
  settledTarget quiet (run opts ops).
Proof.
  intros N Q.
  assert (G : forall (l : list (Dom * Op)) (s : State),
             (quiet = true \/ Forall (fun o => isRunFrame (snd o) = false) l) ->
             wellFormed opts s -> settledTarget quiet s ->
             settledTarget quiet (fold_left (step opts) l s)).
  { induction l as [| [dom op] l IH]; intros s Ql V W; cbn [fold_left];
      [exact W |].
    apply IH.
    - destruct Ql as [Ql | Ql]; [now left | right; now inversion Ql].
    - now apply wellFormed_step.
    - apply (settledTarget_step opts dom quiet N); auto.
      destruct Ql as [Ql | Ql]; [now left | right; now inversion Ql]. }
  apply (G ops init Q).
  - split; cbn; [now left | constructor].
  - split; cbn; [reflexivity | congruence].
Qed.

(** As long as no animation-frame callback runs, the invariant of the data
    model holds in every state that a tour reaches. *)
Lemma stepInvariant_without_frames (opts : TourOptions)
  (ops : list (Dom * Op)) :
  Forall (fun o => isRunFrame (snd o) = false) ops ->
  stepInvariant opts (run opts ops).
Proof.
  intros F. split; [apply currentStep_iff |].
  apply (settledTarget_run opts false ops); [discriminate | now right].
Qed.

(** With [scrollToTarget] off no animation frame is ever requested, and
    then the invariant of the data model holds in every reachable state. *)
Lemma stepInvariant_without_scroll (opts : TourOptions)
  (ops : list (Dom * Op)) :
  scrollToTarget opts = false -> stepInvariant opts (run opts ops).
Proof.
  intros N. split; [apply currentStep_iff |].
  apply (settledTarget_run opts true ops); [auto | now left].
Qed.

(** C9: a tour of one step whose target is in the document, with
    [scrollToTarget] at its default [true]: [start()] resolves the target
    and requests an animation frame, [stop()] clears element and rectangle,
    and then the frame's callback writes the rectangle back.  In the state
    so reached [targetRect] is non-null while [targetElement] is null; the
    first half of the invariant ([currentStep] is non-null exactly when the
    index is that of a step) holds there as in every state. *)
Theorem C9_stale_animation_frame :
  let s := run Demo.single
             [(Demo.document, OpStart 0); (Demo.document, OpStop);
              (Demo.document, OpRunFrame 0)] in
  targetElement s = None
  /\ targetRect s = Some (mkRect 100 100 200 50)
  /\ ~ stepInvariant Demo.single s
  /\ (currentStep Demo.single s <> None
      <-> (0 <= currentStepIndex s < totalSteps Demo.single)%Z).
Proof.
  cbv zeta. split; [reflexivity |]. split; [reflexivity |]. split.
  - intros [_ H]. apply H; [discriminate | reflexivity].
  - apply currentStep_iff.
Qed.

End TourClaims.

(* ===================================================================== *)
(** ** Further properties of the overlay *)
(* ===================================================================== *)

Module OverlayMore.
Import Overlay OverlaySpec OverlayFacts.

Lemma calculatePath_fields (win : Window) (rect : DOMRect)
  (o : OverlayOptions) (s : State) :
  calculatePath win (Some rect) o s
  = mkState (pathFor win rect (mergeOptions (currentOptions s) o))
      (isVisible s) (mergeOptions (currentOptions s) o) (Some rect).
Proof.
  unfold calculatePath, pathFor. cbn.
  destruct (_ || _); reflexivity.
Qed.

Lemma show_fields (win : Window) (rect : DOMRect) (o : OverlayOptions)
  (s : State) :
  show win rect o s
  = mkState (pathFor win rect (mergeOptions (currentOptions s) o))
      true (mergeOptions (currentOptions s) o) (Some rect).
Proof.
  unfold show. now rewrite calculatePath_fields.
Qed.

Lemma step_inSync (win : Window) (s : State) (op : Op) :
  inSync win s -> inSync (fst (step (win, s) op)) (snd (step (win, s) op)).
Proof.
  intros I. destruct op; cbn [step fst snd].
  - rewrite show_fields. reflexivity.
  - unfold inSync, hide. reflexivity.
  - unfold refresh. destruct (isVisible s) eqn:V; [| exact I].
    rewrite calculatePath_fields. unfold inSync.
    cbn [isVisible currentTargetRect path currentOptions].
    now rewrite V.
  - unfold handleResize. unfold inSync in I.
    destruct (isVisible s) eqn:V;
      destruct (currentTargetRect s) as [rect |] eqn:C; try contradiction.
    + rewrite calculatePath_fields. unfold inSync.
      cbn [isVisible currentTargetRect path currentOptions].
      now rewrite V.
    + unfold inSync. now rewrite V, C.
Qed.

(** X1: after every sequence of [show], [hide], [refresh] and window
    resizes, a visible overlay holds a rectangle and its path is the one
    that belongs to that rectangle in the current window under the current
    options; an overlay that is not visible holds no rectangle. *)
Theorem X1_path_in_sync :
  forall (win0 : Window) (ops : list Op),
    inSync (fst (run win0 ops)) (snd (run win0 ops)).
Proof.
  intros win0 ops. unfold run.
  assert (G : forall ws, inSync (fst ws) (snd ws) ->
                         inSync (fst (fold_left step ops ws))
                                (snd (fold_left step ops ws))).
  { induction ops as [| op ops IH]; intros [win s] W; cbn [fold_left];
      [exact W |].
    apply IH. now apply step_inSync. }
  apply G. exact I.
Qed.

(** X2: a window resize while the overlay is shown gives the state that
    [show] with the same rectangle and options gives in the new window; so
    a resize that leaves the window as it is changes nothing, and neither
    does a second [show] or a [refresh] with the same arguments. *)
Theorem X2_resize_is_show :
  forall (win win' : Window) (rect : DOMRect) (o : OverlayOptions)
         (s : State),
    handleResize win' (show win rect o s) = show win' rect o s
    /\ handleResize win (show win rect o s) = show win rect o s
    /\ show win rect o (show win rect o s) = show win rect o s
    /\ refresh win rect o (show win rect o s) = show win rect o s.
Proof.
  intros win win' rect o s.
  assert (M : forall c, mergeOptions (mergeOptions c o) noOptions
                        = mergeOptions c o) by reflexivity.
  assert (M' : forall c, mergeOptions (mergeOptions c o) o
                         = mergeOptions c o).
  { intros c. unfold mergeOptions. cbn.
    destruct o as [[?|] [?|] [?|] [?|] [?|] [?|]]; reflexivity. }
  assert (R : forall w, handleResize w (show win rect o s) = show w rect o s).
  { intros w. rewrite !show_fields. unfold handleResize. cbn [isVisible
      currentTargetRect]. rewrite calculatePath_fields.
    cbn [isVisible currentOptions]. now rewrite M. }
  split; [apply R |]. split; [apply R |].
  assert (S : show win rect o (show win rect o s) = show win rect o s).
  { rewrite (show_fields win rect o (show win rect o s)).
    rewrite (show_fields win rect o s) at 1 2. cbn [currentOptions].
    rewrite M'. symmetry. apply show_fields. }
  split; [exact S |].
  rewrite !show_fields. unfold refresh. cbn [isVisible].
  rewrite calculatePath_fields. cbn [isVisible currentOptions].
  now rewrite M'.
Qed.

(** X3: options that were given once stay in effect: across [hide], a later
    [show] that names no padding (or radius, and so on) uses the value given
    before, not the default; and a [refresh] of a hidden overlay does not
    take its options over. *)
Theorem X3_options_persist :
  forall (win : Window) (r1 r2 : DOMRect) (o1 o2 : OverlayOptions)
         (s : State),
    let s1 := show win r1 o1 s in
    let s2 := show win r2 o2 (hide s1) in
    getOptions s2 = mergeOptions (mergeOptions (getOptions s) o1) o2
    /\ rpadding (getOptions s2)
       = orElse (padding o2) (orElse (padding o1) (rpadding (getOptions s)))
    /\ rradius (getOptions s2)
       = orElse (radius o2) (orElse (radius o1) (rradius (getOptions s)))
    /\ getOptions (hide s1) = getOptions s1
    /\ getOptions (refresh win r2 o2 (hide s1)) = getOptions s1.
Proof.
  intros win r1 r2 o1 o2 s s1 s2. unfold getOptions.
  assert (O1 : currentOptions s1 = mergeOptions (currentOptions s) o1)
    by apply calculatePath_options.
  assert (O2 : currentOptions s2 = mergeOptions (currentOptions s1) o2)
    by apply (calculatePath_options win (Some r2) o2 (hide s1)).
  assert (H : currentOptions (hide s1) = currentOptions s1) by reflexivity.
  assert (F : currentOptions (refresh win r2 o2 (hide s1))
              = currentOptions s1) by reflexivity.
  rewrite F, H, O2, O1. repeat split; reflexivity.
Qed.

(** X4: with a padding that is not negative, the cut-out covers the part of
    the target that lies in the viewport: every point between the target's
    edges, clipped to the viewport, lies between the cut-out's edges, on
    both axes. *)
Theorem X4_cutout_covers_target :
  forall (win : Window) (rect : DOMRect) (padding tx ty : Q),
    0 <= padding ->
    Qmax 0 (rx rect) <= tx <= Qmin (rx rect + rwidth rect) (innerWidth win) ->
    Qmax 0 (ry rect) <= ty <= Qmin (ry rect + rheight rect) (innerHeight win) ->
    let c := cutout win rect padding in
    cx c <= tx <= cx c + cwidth c /\ cy c <= ty <= cy c + cheight c.
Proof.
  intros win rect p tx ty P [X1 X2] [Y1 Y2]. unfold cutout.
  cbn [cx cy cwidth cheight].
  destruct (Q.max_spec 0 (rx rect)) as [[? A] | [? A]]; rewrite A in X1;
    destruct (Q.min_spec (rx rect + rwidth rect) (innerWidth win))
      as [[? B] | [? B]]; rewrite B in X2;
    destruct (Q.max_spec 0 (ry rect)) as [[? C] | [? C]]; rewrite C in Y1;
    destruct (Q.min_spec (ry rect + rheight rect) (innerHeight win))
      as [[? D] | [? D]]; rewrite D in Y2;
    clear A B C D; qcases; lra.
Qed.

Lemma X4_cutout_covers_target_witness :
  let c := cutout mockWindow (mkRect (-20) 700 200 100) 8 in
  cx c <= 100 <= cx c + cwidth c /\ cy c <= 750 <= cy c + cheight c.
Proof.
  apply (X4_cutout_covers_target mockWindow (mkRect (-20) 700 200 100) 8
           100 750); vm_compute; (split; discriminate) || discriminate.
Defined.

End OverlayMore.

(* ===================================================================== *)
(** ** Further properties of the sequencer *)
(* ===================================================================== *)

Module TourMore.
Import Tour TourSpec TourFacts TourIds TourSteps.
Local Open Scope list_scope.

Lemma not_active (s : State) :
  status s <> active -> status_eqb (status s) active = false.
Proof.
  destruct (status s); cbn; congruence.
Qed.

(** X5: in every reachable state with status [active] and no step change
    suspended, [previous()] on the first step, or with no current step,
    changes nothing; on a later step it ends with the index one lower and
    the status still [active], and when the lookup of that step's target
    returns, it has run the step-change protocol with the direction
    ['previous']. *)
Theorem X5_previous :
  forall (opts : TourOptions) (dom : Dom) (ops : list (Dom * Op)),
    let s := run opts ops in
    status s = active -> suspended s = [] ->
    ((currentStepIndex s <= 0)%Z -> previous opts dom s = s)
    /\ ((0 < currentStepIndex s)%Z ->
        exists dest : TourStep,
          stepAt opts (currentStepIndex s - 1) = Some dest
          /\ let s' := settle opts dom (previous opts dom s) in
             currentStepIndex s' = (currentStepIndex s - 1)%Z
             /\ status s' = active
             /\ (returns (resolveTarget dom dest) = true ->
                 log s'
                 = log s ++ protocol opts dom (currentStep opts s) dest
                              (currentStepIndex s - 1) dirPrevious)).
Proof.
  intros opts dom ops s A Q.
  assert (W : wellFormed opts s) by apply wellFormed_run.
  generalize dependent s. intros s A Q W.
  split.
  - intros L. unfold previous, isFirstStep. rewrite A.
    cbn [status_eqb negb orb].
    destruct (Z.eqb_spec (currentStepIndex s) 0); [reflexivity |].
    apply setStep_undefined, stepAt_out_of_range. lia.
  - intros P.
    destruct (stepAt_in_range opts (currentStepIndex s - 1)) as [dest H].
    { destruct W as [[I | I] _]; lia. }
    exists dest. split; [exact H |].
    intros s'. unfold s', previous, isFirstStep. rewrite A.
    cbn [status_eqb negb orb].
    replace (currentStepIndex s =? 0)%Z with false by (symmetry; lia).
    rewrite (settle_setStep opts dom _ dirPrevious dest s Q H).
    destruct (arrived_kept opts dom s dest (currentStepIndex s - 1)
                (log s ++ trace opts dom (currentStep opts s) dest
                            (currentStepIndex s - 1) dirPrevious))
      as (A1 & A2 & A3 & _).
    rewrite A1, A2, A3.
    split; [reflexivity |]. split; [exact A |].
    intros R. now rewrite (trace_returns opts dom _ _ _ _ R).
Qed.

Lemma X5_previous_witness :
  let s := run Demo.options
             [(Demo.document, OpStart 1); (Demo.document, OpContinue 0)] in
  exists dest : TourStep,
    stepAt Demo.options (currentStepIndex s - 1) = Some dest
    /\ let s' := settle Demo.options Demo.document
                   (previous Demo.options Demo.document s) in
       currentStepIndex s' = (currentStepIndex s - 1)%Z
       /\ status s' = active
       /\ (returns (resolveTarget Demo.document dest) = true ->
           log s'
           = log s ++ protocol Demo.options Demo.document
                        (currentStep Demo.options s) dest
                        (currentStepIndex s - 1) dirPrevious).
Proof.
  apply (X5_previous Demo.options Demo.document
           [(Demo.document, OpStart 1); (Demo.document, OpContinue 0)]);
    reflexivity.
Defined.

(** X6: with status [active], [goTo(index)] with a number that is negative
    or not below the number of steps changes nothing; with the index of a
    step, when no step change is suspended, it ends at that index, and
    when the lookup of that step's target returns, it has run the protocol
    with the direction ['next'] if the index is greater than the one
    before and ['previous'] otherwise (also when it is the same). *)
Theorem X6_goTo_index :
  forall (opts : TourOptions) (dom : Dom) (s : State) (i : Z),
    status s = active ->
    ((i < 0 \/ totalSteps opts <= i)%Z -> goTo opts dom (inl i) s = s)
    /\ (forall dest : TourStep,
          stepAt opts i = Some dest -> suspended s = [] ->
          let direction :=
            if (i >? currentStepIndex s)%Z then dirNext else dirPrevious in
          let s' := settle opts dom (goTo opts dom (inl i) s) in
          currentStepIndex s' = i
          /\ status s' = active
          /\ (returns (resolveTarget dom dest) = true ->
              log s'
              = log s ++ protocol opts dom (currentStep opts s) dest i
                           direction)).
Proof.
  intros opts dom s i A. split.
  - intros R. unfold goTo. rewrite A. cbn [status_eqb negb].
    replace ((i >=? 0)%Z && (i <? totalSteps opts)%Z) with false;
      [reflexivity |].
    symmetry. apply andb_false_iff. lia.
  - intros dest H Q direction s'.
    assert (R := stepAt_range opts i dest H).
    unfold s', goTo. rewrite A. cbn [status_eqb negb].
    replace ((i >=? 0)%Z && (i <? totalSteps opts)%Z) with true
      by (symmetry; apply andb_true_iff; lia).
    fold direction.
    rewrite (settle_setStep opts dom i direction dest s Q H).
    destruct (arrived_kept opts dom s dest i
                (log s ++ trace opts dom (currentStep opts s) dest i
                            direction)) as (A1 & A2 & A3 & _).
    rewrite A1, A2, A3.
    split; [reflexivity |]. split; [exact A |].
    intros Rt. now rewrite (trace_returns opts dom _ _ _ _ Rt).
Qed.

Lemma X6_goTo_index_witness :
  let s := run Demo.options
             [(Demo.document, OpStart 1); (Demo.document, OpContinue 0)] in
  goTo Demo.options Demo.document (inl 7%Z) s = s
  /\ (let direction :=
        if (0 >? currentStepIndex s)%Z then dirNext else dirPrevious in
      let s' := settle Demo.options Demo.document
                  (goTo Demo.options Demo.document (inl 0%Z) s) in
      currentStepIndex s' = 0%Z
      /\ status s' = active
      /\ (returns (resolveTarget Demo.document Demo.welcome) = true ->
          log s'
          = log s ++ protocol Demo.options Demo.document
                       (currentStep Demo.options s) Demo.welcome 0
                       direction)).
Proof.
  intros s. split.
  - apply (X6_goTo_index Demo.options Demo.document s 7); [reflexivity |].
    right. vm_compute. discriminate.
  - apply (X6_goTo_index Demo.options Demo.document s 0); reflexivity.
Defined.

Lemma inactive_ignores (opts : TourOptions) (dom : Dom) (s : State) :
  status s <> active ->
  next opts dom s = s
  /\ previous opts dom s = s
  /\ (forall r, goTo opts dom r s = s)
  /\ pause s = s
  /\ (forall key, handleKeydown opts dom key s = s)
  /\ (forall inside, handleClickOutside opts inside s = s)
  /\ handleResize opts dom s = s
  /\ (forall n,
        fireTimer opts dom n s
        = match nth_error (timers s) n with
          | Some _ => setTimers (removeNth n (timers s)) s
          | None => s
          end).
Proof.
  intros N. apply not_active in N.
  split; [unfold next; now rewrite N |].
  split; [unfold previous; now rewrite N |].
  split; [intros r; unfold goTo; now rewrite N |].
  split; [unfold pause; now rewrite N |].
  split; [intros key; unfold handleKeydown; rewrite N; cbn [negb];
          now rewrite orb_true_r |].
  split; [intros inside; unfold handleClickOutside; rewrite N; cbn [negb];
          now rewrite orb_true_r |].
  split; [unfold handleResize; now rewrite N |].
  intros n. unfold fireTimer.
  destruct (nth_error (timers s) n) as [[i d] |]; [| reflexivity].
  cbn [status setTimers]. now rewrite N.
Qed.

(** X7: a tour whose status is not [active] (idle, paused or completed)
    ignores navigation and input: [next], [previous], [goTo], [pause], key
    presses, clicks and resize or scroll events leave the state as it is,
    and an auto-advance timeout that fires is only used up. *)
Theorem X7_inactive_ignores_input :
  forall (opts : TourOptions) (dom : Dom) (s : State),
    status s <> active ->
    next opts dom s = s
    /\ previous opts dom s = s
    /\ (forall r, goTo opts dom r s = s)
    /\ pause s = s
    /\ (forall key, handleKeydown opts dom key s = s)
    /\ (forall inside, handleClickOutside opts inside s = s)
    /\ handleResize opts dom s = s
    /\ (forall n,
          fireTimer opts dom n s
          = match nth_error (timers s) n with
            | Some _ => setTimers (removeNth n (timers s)) s
            | None => s
            end).
Proof.
  intros opts dom s N. now apply inactive_ignores.
Qed.

Lemma X7_inactive_ignores_input_witness :
  let s := run Demo.options
             [(Demo.document, OpStart 0); (Demo.document, OpContinue 0);
              (Demo.document, OpPause)] in
  next Demo.options Demo.document s = s
  /\ fireTimer Demo.options Demo.document 0 s = setTimers [] s.
Proof.
  intros s.
  destruct (X7_inactive_ignores_input Demo.options Demo.document s)
    as (A & _ & _ & _ & _ & _ & _ & B); [discriminate |].
  split; [exact A | exact (B 0%nat)].
Defined.

(** X8: [pause()] and [resume()] undo each other: on an active tour
    [resume] after [pause] gives back the state, index and target included,
    and on a paused tour so does [pause] after [resume]; in any other
    status each of them changes nothing. *)
Theorem X8_pause_resume :
  forall s : State,
    (status s = active ->
     status (pause s) = paused /\ resume (pause s) = s)
    /\ (status s = paused ->
        status (resume s) = active /\ pause (resume s) = s)
    /\ (status s <> active -> pause s = s)
    /\ (status s <> paused -> resume s = s).
Proof.
  intros [st ix te tr lg su ti fr]. unfold pause, resume.
  cbn [status setStatus currentStepIndex targetElement targetRect log
       suspended timers frames].
  split; [| split; [| split]]; intros E.
  - subst st. cbn. split; reflexivity.
  - subst st. cbn. split; reflexivity.
  - destruct st; try reflexivity. congruence.
  - destruct st; try reflexivity. congruence.
Qed.

Lemma X8_pause_resume_witness :
  let s := run Demo.options
             [(Demo.document, OpStart 0); (Demo.document, OpContinue 0)] in
  status (pause s) = paused /\ resume (pause s) = s.
Proof.
  intros s. destruct (X8_pause_resume s) as [H _]. apply H. reflexivity.
Defined.

(** *** Status and index *)

Lemma empty_no_step (opts : TourOptions) (i : Z) :
  steps opts = [] -> stepAt opts i = None.
Proof.
  intros E. apply stepAt_out_of_range. unfold totalSteps. rewrite E.
  cbn. lia.
Qed.

Lemma empty_stays_inactive (opts : TourOptions) (s : State)
  (o : Dom * Op) :
  steps opts = [] -> wellFormed opts s ->
  (status s = idle \/ status s = completed) ->
  status (step opts s o) = idle \/ status (step opts s o) = completed.
Proof.
  intros E W J. destruct o as [dom op].
  assert (N : status s <> active) by (destruct J; congruence).
  destruct (inactive_ignores opts dom s N)
    as (Hn & Hp & Hg & Hpa & Hk & Hc & Hr & Ht).
  destruct op; cbn [step].
  - unfold start. now rewrite E.
  - now left.
  - now rewrite Hn.
  - now rewrite Hp.
  - now rewrite Hg.
  - left. unfold skip. destruct (onSkip opts); reflexivity.
  - now rewrite Hpa.
  - unfold resume. destruct J as [J | J]; rewrite J; cbn; auto.
  - right. unfold complete. destruct (onComplete opts); reflexivity.
  - unfold continue.
    destruct (nth_error (suspended s) n) as [k |] eqn:K; [| exact J].
    exfalso. destruct W as [_ V]. rewrite Forall_forall in V.
    assert (Vk := V k (nth_error_In _ _ K)).
    destruct k; cbn in Vk; rewrite (empty_no_step opts _ E) in Vk;
      discriminate.
  - rewrite Ht. destruct (nth_error (timers s) n); exact J.
  - unfold runFrame. destruct (nth_error (frames s) n); exact J.
  - now rewrite Hk.
  - now rewrite Hc.
  - now rewrite Hr.
Qed.

(** X9: in every state that a tour reaches, through controls, settled
    promises, timeouts, animation frames and input events, the index is
    [-1] or the index of a step; and a tour without steps is never active
    or paused, and its index is always [-1]. *)
Theorem X9_index_in_range :
  forall (opts : TourOptions) (ops : list (Dom * Op)),
    let s := run opts ops in
    (currentStepIndex s = -1 \/ 0 <= currentStepIndex s < totalSteps opts)%Z
    /\ (steps opts = [] ->
        (status s = idle \/ status s = completed)
        /\ currentStepIndex s = (-1)%Z).
Proof.
  intros opts ops s.
  assert (W : wellFormed opts s) by apply wellFormed_run.
  split; [apply W |]. intros E.
  split.
  - unfold s, run.
    assert (G : forall l t, wellFormed opts t ->
                 (status t = idle \/ status t = completed) ->
                 status (fold_left (step opts) l t) = idle
                 \/ status (fold_left (step opts) l t) = completed).
    { induction l as [| o l IH]; intros t Wt J; cbn [fold_left];
        [exact J |].
      apply IH; [now apply wellFormed_step |].
      now apply empty_stays_inactive. }
    apply G; [| now left].
    split; cbn; [now left | constructor].
  - destruct W as [[I | I] _]; [exact I |].
    unfold totalSteps in I. rewrite E in I. cbn in I. lia.
Qed.

Lemma X9_index_in_range_witness :
  let s := run Demo.empty
             [(Demo.document, OpStart 0); (Demo.document, OpResume);
              (Demo.document, OpNext)] in
  (status s = idle \/ status s = completed)
  /\ currentStepIndex s = (-1)%Z.
Proof.
  apply (X9_index_in_range Demo.empty
           [(Demo.document, OpStart 0); (Demo.document, OpResume);
            (Demo.document, OpNext)]).
  reflexivity.
Defined.

Lemma inject_Z_pos (d : Z) : (0 < d)%Z -> ~ inject_Z d == 0.
Proof.
  intros H E. assert (D : d = 0%Z) by (apply inject_Z_injective; exact E).
  lia.
Qed.

Lemma progress_value (opts : TourOptions) (s : State) :
  (0 < totalSteps opts)%Z ->
  progress opts s * inject_Z (totalSteps opts)
  == inject_Z (currentStepIndex s + 1) * 100.
Proof.
  intros P. unfold progress.
  replace (0 <? totalSteps opts)%Z with true by (symmetry; lia).
  assert (NZ := inject_Z_pos (totalSteps opts) P).
  field. exact NZ.
Qed.

(** X10: in every reachable state the progress lies between 0 and 100; on
    a tour with steps it is 0 exactly when there is no current step and
    100 exactly on the last step; on a tour without steps it is 0. *)
Theorem X10_progress :
  forall (opts : TourOptions) (ops : list (Dom * Op)),
    let s := run opts ops in
    0 <= progress opts s <= 100
    /\ ((0 < totalSteps opts)%Z ->
        (progress opts s == 0 <-> currentStepIndex s = (-1)%Z)
        /\ (progress opts s == 100 <-> isLastStep opts s = true))
    /\ (totalSteps opts = 0%Z -> progress opts s = 0).
Proof.
  intros opts ops s.
  assert (W : wellFormed opts s) by apply wellFormed_run.
  destruct W as [I _]. generalize dependent s. intros s I.
  destruct (Z.ltb_spec 0 (totalSteps opts)) as [P | P].
  - assert (V := progress_value opts s P).
    assert (B : 0 <= inject_Z (currentStepIndex s + 1)
                <= inject_Z (totalSteps opts)).
    { split; [change 0 with (inject_Z 0) |]; rewrite <- Zle_Qle; lia. }
    assert (T : 0 < inject_Z (totalSteps opts)).
    { change 0 with (inject_Z 0). rewrite <- Zlt_Qlt. exact P. }
    assert (K := inject_Z_injective).
    set (p := progress opts s) in *.
    set (n := inject_Z (totalSteps opts)) in *.
    set (k := inject_Z (currentStepIndex s + 1)) in *.
    split; [| split].
    + split; nra.
    + intros _. split.
      * rewrite <- (Z.add_cancel_r _ _ 1). cbn [Z.add Z.opp Z.pos_sub].
        rewrite <- (K (currentStepIndex s + 1)%Z 0%Z). fold k.
        change (inject_Z 0) with 0. split; intros E; nra.
      * unfold isLastStep. rewrite Z.eqb_eq.
        rewrite <- (Z.add_cancel_r _ _ 1).
        replace (totalSteps opts - 1 + 1)%Z with (totalSteps opts) by lia.
        rewrite <- K. fold k n. split; intros E; nra.
    + intros E. lia.
  - assert (E : progress opts s = 0).
    { unfold progress.
      now replace (0 <? totalSteps opts)%Z with false by (symmetry; lia). }
    rewrite E. split; [split; discriminate |].
    split; [intros; lia | auto].
Qed.

Lemma X10_progress_witness :
  let s := run Demo.options
             [(Demo.document, OpStart 0); (Demo.document, OpContinue 0)] in
  (progress Demo.options s == 0 <-> currentStepIndex s = (-1)%Z)
  /\ (progress Demo.options s == 100 <-> isLastStep Demo.options s = true).
Proof.
  apply (X10_progress Demo.options
           [(Demo.document, OpStart 0); (Demo.document, OpContinue 0)]).
  reflexivity.
Defined.

(** *** Targets, timers and the end of a tour *)

(** X11: [start(index)] with the index of a step, from a state with no step
    change suspended, ends with status [active] and that step current.
    When the lookup of the step's target finds an element, [targetElement]
    is that element and [targetRect] its rectangle; when it finds none,
    both are null, and the tour stays active; when it throws, both are
    left as they were before the call. *)
Theorem X11_start_resolves_target :
  forall (opts : TourOptions) (dom : Dom) (s : State) (i : Z)
         (dest : TourStep),
    stepAt opts i = Some dest -> suspended s = [] ->
    let s' := settle opts dom (start opts dom i s) in
    status s' = active
    /\ currentStepIndex s' = i
    /\ currentStep opts s' = Some dest
    /\ (forall el : HTMLElement,
          resolveTarget dom dest = Found el ->
          targetElement s' = Some el
          /\ targetRect s' = Some (getBoundingClientRect dom el))
    /\ (resolveTarget dom dest = NotFound ->
        targetElement s' = None /\ targetRect s' = None)
    /\ (resolveTarget dom dest = Throws ->
        targetElement s' = targetElement s
        /\ targetRect s' = targetRect s).
Proof.
  intros opts dom s i dest H Q s'.
  assert (R := stepAt_range opts i dest H).
  assert (L : (length (steps opts) =? 0)%nat = false).
  { apply Nat.eqb_neq. unfold totalSteps in R. lia. }
  destruct (settle_setStep_emitIf opts dom (onStart opts) CallOnStart i
              dirNext dest (setStatus active s) Q H eq_refl)
    as (added & E & _).
  unfold s', start. rewrite L, E.
  destruct (arrived_kept opts dom (setStatus active s) dest i
              (log (setStatus active s) ++ added)) as (A1 & A2 & _).
  split; [exact A1 |]. split; [exact A2 |].
  split; [rewrite currentStep_at; rewrite A2; assumption |].
  unfold arrived.
  split; [intros el F | split; intros F]; rewrite F; cbn; auto.
Qed.

Lemma X11_start_resolves_target_witness :
  let s' := settle Demo.options Demo.document
              (start Demo.options Demo.document 0 init) in
  status s' = active
  /\ currentStepIndex s' = 0%Z
  /\ currentStep Demo.options s' = Some Demo.welcome
  /\ targetElement s' = Some 1%nat
  /\ targetRect s' = Some (mkRect 100 100 200 50).
Proof.
  intros s'.
  destruct (X11_start_resolves_target Demo.options Demo.document init 0
              Demo.welcome eq_refl eq_refl) as (A & B & C & D & _).
  destruct (D 1%nat eq_refl) as [E F].
  split; [exact A |]. split; [exact B |]. split; [exact C |].
  split; [exact E | exact F].
Defined.

Lemma nth_error_last {A : Type} (l : list A) (x : A) :
  nth_error (l ++ [x]) (length l) = Some x.
Proof.
  induction l as [| a l IH]; cbn; [reflexivity | exact IH].
Qed.

Lemma removeNth_last {A : Type} (l : list A) (x : A) :
  removeNth (length l) (l ++ [x]) = l.
Proof.
  induction l as [| a l IH]; cbn; [reflexivity | now rewrite IH].
Qed.

(** X12: a step with [autoAdvance > 0] whose target lookup returns, entered
    (here by [goTo]) from an active tour with no step change suspended,
    leaves one timeout pending; when that timeout fires while the tour is
    still active on that step, the tour moves on as by [next()]: to the
    following step, or to [completed] with the index reset when the step
    is the last. *)
Theorem X12_auto_advance :
  forall (opts : TourOptions) (dom : Dom) (s : State) (i : Z)
         (dest : TourStep) (delay : Q),
    status s = active -> suspended s = [] ->
    stepAt opts i = Some dest ->
    returns (resolveTarget dom dest) = true ->
    autoAdvance dest = Some delay -> 0 < delay ->
    let s1 := settle opts dom (goTo opts dom (inl i) s) in
    let n := length (timers s) in
    timers s1 = timers s ++ [(i, delay)]
    /\ fireTimer opts dom n s1 = next opts dom (setTimers (timers s) s1)
    /\ let s2 := settle opts dom (fireTimer opts dom n s1) in
       if (i =? totalSteps opts - 1)%Z
       then status s2 = completed /\ currentStepIndex s2 = (-1)%Z
       else status s2 = active /\ currentStepIndex s2 = (i + 1)%Z.
Proof.
  intros opts dom s i dest delay A Q H Rt D P s1 n.
  assert (R := stepAt_range opts i dest H).
  assert (T : autoAdvanceTimer dest i = [(i, delay)]).
  { unfold autoAdvanceTimer. rewrite D.
    now rewrite (proj2 (Qltb_true 0 delay) P). }
  assert (E1 : s1 = arrived opts dom s dest i
                      (log s ++ trace opts dom (currentStep opts s) dest i
                                  (if (i >? currentStepIndex s)%Z
                                   then dirNext else dirPrevious))).
  { unfold s1, goTo. rewrite A. cbn [status_eqb negb].
    replace ((i >=? 0)%Z && (i <? totalSteps opts)%Z) with true
      by (symmetry; apply andb_true_iff; lia).
    now apply settle_setStep. }
  rewrite (arrived_returns opts dom _ _ _ _ Rt) in E1.
  assert (T1 : timers s1 = timers s ++ [(i, delay)]).
  { rewrite E1. cbn [timers]. now rewrite T. }
  assert (S1 : status s1 = active)
    by (rewrite E1; cbn [status]; exact A).
  assert (I1 : currentStepIndex s1 = i) by (rewrite E1; reflexivity).
  assert (Q1 : suspended s1 = []) by (rewrite E1; reflexivity).
  assert (F : fireTimer opts dom n s1
              = next opts dom (setTimers (timers s) s1)).
  { unfold fireTimer. rewrite T1. unfold n.
    rewrite nth_error_last, removeNth_last.
    cbn [status currentStepIndex setTimers]. rewrite S1, I1.
    cbn [status_eqb andb]. now rewrite Z.eqb_refl. }
  split; [exact T1 |]. split; [exact F |].
  intros s2. unfold s2. rewrite F. clear s2 F.
  set (t := setTimers (timers s) s1).
  assert (St : status t = active) by exact S1.
  assert (It : currentStepIndex t = i) by exact I1.
  assert (Qt : suspended t = []) by exact Q1.
  unfold next, isLastStep. rewrite St, It. cbn [status_eqb negb].
  destruct (Z.eqb_spec i (totalSteps opts - 1)) as [L | L].
  - unfold complete.
    rewrite settle_quiescent by (destruct (onComplete opts); exact Qt).
    destruct (onComplete opts); split; reflexivity.
  - destruct (stepAt_in_range opts (i + 1)) as [nx Hn]; [lia |].
    rewrite (settle_setStep opts dom (i + 1) dirNext nx t Qt Hn).
    destruct (arrived_kept opts dom t nx (i + 1)
                (log t ++ trace opts dom (currentStep opts t) nx (i + 1)
                            dirNext)) as (A1 & A2 & _).
    rewrite A1, A2. now split.
Qed.

Lemma X12_auto_advance_witness :
  let s := run Demo.options
             [(Demo.document, OpStart 1); (Demo.document, OpContinue 0)] in
  let s1 := settle Demo.options Demo.document
              (goTo Demo.options Demo.document (inl 0%Z) s) in
  let n := length (timers s) in
  timers s1 = timers s ++ [(0%Z, 1500)]
  /\ fireTimer Demo.options Demo.document n s1
     = next Demo.options Demo.document (setTimers (timers s) s1)
  /\ let s2 := settle Demo.options Demo.document
                 (fireTimer Demo.options Demo.document n s1) in
     if (0 =? totalSteps Demo.options - 1)%Z
     then status s2 = completed /\ currentStepIndex s2 = (-1)%Z
     else status s2 = active /\ currentStepIndex s2 = (0 + 1)%Z.
Proof.
  intros s.
  apply (X12_auto_advance Demo.options Demo.document s 0 Demo.welcome 1500);
    reflexivity.
Defined.

(** X13: [stop()], [skip()] and [complete()] reset the tour whatever its
    status was: the index is [-1] and target element and rectangle are
    null, the status is [idle], [idle] and [completed]; [stop] calls no
    callback, [skip] only [onSkip] and [complete] only [onComplete], so the
    step that is left gets neither [onBeforeHide] nor [onAfterHide]; and
    what is suspended or scheduled is left pending. *)
Theorem X13_ending_resets :
  forall (opts : TourOptions) (s : State),
    (status (stop s) = idle /\ cleared (stop s) /\ log (stop s) = log s)
    /\ (status (skip opts s) = idle /\ cleared (skip opts s)
        /\ log (skip opts s) = log s ++ optional (onSkip opts) CallOnSkip)
    /\ (status (complete opts s) = completed /\ cleared (complete opts s)
        /\ log (complete opts s)
           = log s ++ optional (onComplete opts) CallOnComplete)
    /\ (suspended (stop s) = suspended s /\ timers (stop s) = timers s
        /\ frames (stop s) = frames s)
    /\ (suspended (skip opts s) = suspended s
        /\ timers (skip opts s) = timers s
        /\ frames (skip opts s) = frames s)
    /\ (suspended (complete opts s) = suspended s
        /\ timers (complete opts s) = timers s
        /\ frames (complete opts s) = frames s).
Proof.
  intros opts s. unfold cleared.
  split; [repeat split |].
  split; [unfold skip; rewrite log_emitIf;
          destruct (onSkip opts); repeat split |].
  split; [unfold complete; rewrite log_emitIf;
          destruct (onComplete opts); repeat split |].
  split; [repeat split |].
  split; [unfold skip; destruct (onSkip opts); repeat split |].
  unfold complete; destruct (onComplete opts); repeat split.
Qed.

(** X14: [stop()] does not cancel a step change that is waiting for its
    [onBeforeShow]: when that callback settles the change is committed all
    the same, and the tour is then idle with the destination's index (and,
    when the lookup returns, with the destination's target and the rest of
    the protocol run). *)
Theorem X14_stop_keeps_pending_change :
  forall (opts : TourOptions) (dom : Dom) (s : State)
         (leaving : option TourStep) (dest : TourStep) (i : Z)
         (d : Direction),
    stepAt opts i = Some dest ->
    suspended s = [AwaitBeforeShow leaving dest i d] ->
    let s' := settle opts dom (stop s) in
    status s' = idle
    /\ currentStepIndex s' = i
    /\ (returns (resolveTarget dom dest) = true ->
        targetElement s' = found (resolveTarget dom dest)
        /\ log s' = log s ++ commitEvents opts dom leaving dest i d).
Proof.
  intros opts dom s leaving dest i d H K s'. unfold s'.
  rewrite (settle_awaitBeforeShow opts dom leaving dest i d (stop s) H K).
  rewrite (finishStep_spec opts dom _ _ _ _ _ H).
  unfold arrived, commitTrace.
  destruct (returns (resolveTarget dom dest)); cbn.
  - auto.
  - split; [reflexivity |]. split; [reflexivity | discriminate].
Qed.

Lemma X14_stop_keeps_pending_change_witness :
  let s := start Demo.options Demo.document 0 init in
  let s' := settle Demo.options Demo.document (stop s) in
  status s' = idle
  /\ currentStepIndex s' = 0%Z
  /\ (returns (resolveTarget Demo.document Demo.welcome) = true ->
      targetElement s' = found (resolveTarget Demo.document Demo.welcome)
      /\ log s' = log s ++ commitEvents Demo.options Demo.document None
                             Demo.welcome 0 dirNext).
Proof.
  intros s.
  apply (X14_stop_keeps_pending_change Demo.options Demo.document s None
           Demo.welcome 0 dirNext); reflexivity.
Defined.



(** X16: the keys and the pointer.  With [keyboardNavigation] off no key
    does anything.  With it on, on an active tour, the right arrow and
    Enter do what [next()] does, the left arrow what [previous()] does,
    Escape what [skip()] does when [closeOnEscape] is on and nothing when
    it is off, and any other key nothing.  A click skips the tour
    exactly when [closeOnClickOutside] is on, the tour is active, there
    is a target element and the click was outside it. *)
Theorem X16_keys_and_clicks :
  forall (opts : TourOptions) (dom : Dom) (s : State),
    (keyboardNavigation opts = false ->
     forall key, handleKeydown opts dom key s = s)
    /\ (keyboardNavigation opts = true -> status s = active ->
        handleKeydown opts dom ArrowRight s = next opts dom s
        /\ handleKeydown opts dom Enter s = next opts dom s
        /\ handleKeydown opts dom ArrowLeft s = previous opts dom s
        /\ handleKeydown opts dom Escape s
           = (if closeOnEscape opts then skip opts s else s)
        /\ handleKeydown opts dom OtherKey s = s)
    /\ (forall inside : bool,
          handleClickOutside opts inside s
          = if closeOnClickOutside opts
               && status_eqb (status s) active
               && match targetElement s with
                  | Some _ => negb inside
                  | None => false
                  end
            then skip opts s else s).
Proof.
  intros opts dom s. split; [| split].
  - intros K key. unfold handleKeydown. now rewrite K.
  - intros K A. unfold handleKeydown. rewrite K, A.
    cbn [negb orb status_eqb]. repeat split.
  - intros inside. unfold handleClickOutside.
    destruct (closeOnClickOutside opts), (status_eqb (status s) active),
      (targetElement s), inside; reflexivity.
Qed.

Lemma X16_keys_and_clicks_witness :
  let s := run Demo.options
             [(Demo.document, OpStart 0); (Demo.document, OpContinue 0)] in
  handleKeydown Demo.options Demo.document ArrowRight s
  = next Demo.options Demo.document s
  /\ handleKeydown Demo.options Demo.document Escape s
     = skip Demo.options s.
Proof.
  intros s.
  destruct (X16_keys_and_clicks Demo.options Demo.document s)
    as (_ & K & _).
  destruct (K eq_refl eq_refl) as (A & _ & _ & B & _).
  split; [exact A | exact B].
Defined.

End TourMore.

(* ===================================================================== *)
(** ** The adapter's overlay *)
(* ===================================================================== *)

Module AdapterMore.
Import Tour OverlaySpec.



End AdapterMore.
